(** * ReviewGrouping: the grouping pipeline of [index.py]

    A shallow embedding of the class [GroupGeneration] (limit calculator,
    backtracking engine, the three phase predicates, validator and the
    [run] pipeline) together with the properties its specification states.

    Conventions of the embedding.
    - Python [int] is [Z]; list lengths are [nat] and are injected with
      [Z.of_nat] where the source compares them with an [int].
    - Python [str] is its UTF-8 encoding as a [string].
    - [assigned_groups] is a [defaultdict(list)]: a finite map read with
      the total lookup [!!!], whose default is the empty list.  Reading a
      missing key of a defaultdict also stores the empty list under it;
      nothing in the program can tell such an entry from a missing one, so
      tables are compared group by group ([table_equiv]).
    - An uncaught Python exception is the result [None].
    - [a / b] on two [int]s is the exact quotient rounded to the nearest
      binary64 value, ties to even, and raises OverflowError beyond the
      float range; [math.ceil] of that value is an [int] again
      ([Py.true_div], [Py.ceil], [Py.ceil_div]).  The ceiling is the exact
      one while both numbers are below 2^53 ([ceil_div_exact]).
    - The lines of a text are a list in memory: the runtime is taken to
      give fewer than 2^52 of them ([str_splitlines_bound]), so the head
      counts of a parsed input stay in the range where the ceilings are
      exact ([parse_input_bounds]). *)

From stdpp Require Import gmap strings list pretty sorting.
From Stdlib Require Import ZArith Lia.

(** ** The language runtime

    Text primitives of [str] and the generator of [random] are not code of
    the repository; the pipeline is parameterised by them.  The list a
    text is split into is held in memory, one 8-byte reference per line:
    it is taken to have fewer than 2^52 lines, 2^55 bytes of references
    being more than a machine addresses as memory. *)

Class Runtime := {
  str_splitlines : string → list string;      (* str.splitlines() *)
  str_splitlines_bound : ∀ text : string,
    (Z.of_nat (length (str_splitlines text)) < 2 ^ 52)%Z;
  str_strip : string → string;                (* str.strip() *)
  str_split : string → list string;           (* str.split() *)
  str_int : string → option Z;                (* int(s); None is ValueError *)
  rng : Type;                                 (* state of the generator *)
  random_seed : Z → rng;                      (* random.seed(seed) *)
  random_shuffle : ∀ A : Type, rng → list A → list A * rng   (* random.shuffle(l) *)
}.

(** [random.shuffle] rearranges its argument in place. *)
Class RuntimeLaws (rt : Runtime) := {
  random_shuffle_perm : ∀ (A : Type) (s : rng) (l : list A),
    (random_shuffle A s l).1 ≡ₚ l
}.

Module Py.

Local Open Scope Z_scope.

(** [range(a, b)] *)
Definition range (a b : Z) : list Z :=
  (λ k : nat, a + Z.of_nat k) <$> seq 0 (Z.to_nat (b - a)).

(** [l[i]] with Python's negative indices; [None] is IndexError. *)
Definition getitem {A} (l : list A) (i : Z) : option A :=
  if bool_decide (0 ≤ i) then l !! Z.to_nat i
  else if bool_decide (0 ≤ Z.of_nat (length l) + i)
       then l !! Z.to_nat (Z.of_nat (length l) + i)
       else None.

(** Clamping of one slice bound. *)
Definition slice_bound (len x : Z) : Z :=
  if bool_decide (x < 0) then Z.max (x + len) 0 else Z.min x len.

(** [l[a:b]] *)
Definition slice {A} (l : list A) (a b : Z) : list A :=
  let len := Z.of_nat (length l) in
  let a' := slice_bound len a in
  let b' := slice_bound len b in
  take (Z.to_nat (b' - a')) (drop (Z.to_nat a') l).

(** A finite binary64 value, [mantissa * 2 ^ exponent]. *)
Record float := Float { mantissa : Z; exponent : Z }.

(** The quotient [num / den] of two positive integers rounded to the
    nearest integer, ties to the even one. *)
Definition round_half_even (num den : Z) : Z :=
  let q := num `div` den in
  let r := num `mod` den in
  if bool_decide (den < 2 * r) || (bool_decide (2 * r = den) && Z.odd q)
  then q + 1 else q.

(** The binary exponent [e] of [x / y] for positive integers:
    [2 ^ e <= x / y < 2 ^ (e + 1)]. *)
Definition quotient_exponent (x y : Z) : Z :=
  let d := Z.log2 x - Z.log2 y in
  if bool_decide (y * 2 ^ Z.max d 0 ≤ x * 2 ^ Z.max (- d) 0) then d else d - 1.

(** [a / b] for two [int]s: the exact quotient rounded to the nearest
    binary64 value (53 significant bits, exponents from -1074 on), ties to
    even.  [None] is ZeroDivisionError or, for a quotient that rounds
    beyond the largest finite value, OverflowError. *)
Definition true_div (a b : Z) : option float :=
  if bool_decide (b = 0) then None
  else if bool_decide (a = 0) then Some (Float 0 0)
  else
    let x := Z.abs a in
    let y := Z.abs b in
    let k := Z.max (quotient_exponent x y - 52) (- 1074) in
    let m := round_half_even (x * 2 ^ Z.max (- k) 0) (y * 2 ^ Z.max k 0) in
    if bool_decide (2 ^ (1024 + Z.max (- k) 0) ≤ m * 2 ^ Z.max k 0) then None
    else Some (Float (Z.sgn a * Z.sgn b * m) k).

(** [math.ceil(x)] for a [float] x: an [int], computed without rounding. *)
Definition ceil (x : float) : Z :=
  - ((- (mantissa x * 2 ^ Z.max (exponent x) 0))
       `div` 2 ^ Z.max (- exponent x) 0).

(** [math.ceil(a / b)] *)
Definition ceil_div (a b : Z) : option Z := ceil <$> true_div a b.

(** A number that is an [int] or one of [float('inf')], [float('-inf')]. *)
Inductive num := NegInf | PosInf | Int (z : Z).

(** [max(a, b)] for an [int] b *)
Definition max (a : num) (b : Z) : num :=
  match a with
  | NegInf => Int b
  | PosInf => PosInf
  | Int z => Int (Z.max z b)
  end.

(** [min(a, b)] for an [int] b *)
Definition min (a : num) (b : Z) : num :=
  match a with
  | NegInf => NegInf
  | PosInf => Int b
  | Int z => Int (Z.min z b)
  end.

(** [a - b > 1]; inf - inf is nan, and every comparison with nan is False. *)
Definition diff_gt_1 (a b : num) : bool :=
  match a, b with
  | Int x, Int y => bool_decide (1 < x - y)
  | PosInf, PosInf => false
  | PosInf, _ => true
  | NegInf, _ => false
  | Int _, PosInf => false
  | Int _, NegInf => true
  end.

(** Outcome of a loop body: an exception, a [return], or falling through. *)
Inductive flow (A : Type) :=
| Raise
| Return (b : bool)
| Continue (a : A).
Global Arguments Raise {A}.
Global Arguments Return {A} b.
Global Arguments Continue {A} a.

End Py.

Module GroupGeneration.

Local Open Scope Z_scope.

(** ** Data model *)

Record Person := mkPerson {
  name : string;
  province : string;
  is_external : bool
}.

Global Instance Person_eq_dec : EqDecision Person.
Proof. solve_decision. Defined.

Abbreviation Table := (gmap nat (list Person)).

Record State := mkState {
  M : Z;
  N : Z;
  external_num : Z;
  group_person_lower_limit : Z;
  group_person_upper_limit : Z;
  group_external_upper_limit : Z;
  assigned_groups : Table;
  group_leaders : list Person;
  group_members : list Person;
  groups : list (list string);
  group_members_no_external : list Person;
  group_members_external : list Person;
  max_group_external_touch_upper_limit : Z;
  max_group_member_touch_upper_limit : Z
}.

(** The class-level defaults. *)
Definition initial : State :=
  mkState (-1) (-1) 0 1 (-1) (-1) ∅ [] [] [] [] [] (-1) (-1).

Definition set_assigned_groups (st : State) (t : Table) : State :=
  mkState (M st) (N st) (external_num st)
    (group_person_lower_limit st) (group_person_upper_limit st)
    (group_external_upper_limit st) t
    (group_leaders st) (group_members st) (groups st)
    (group_members_no_external st) (group_members_external st)
    (max_group_external_touch_upper_limit st)
    (max_group_member_touch_upper_limit st).

(** [range(self.M)], the group ids *)
Definition group_ids (m : Z) : list nat := seq 0 (Z.to_nat m).

(** ** The assignment table *)

(** [assigned_groups[g].append(person)] *)
Definition table_append (t : Table) (g : nat) (person : Person) : Table :=
  <[g := t !!! g ++ [person]]> t.

(** [assigned_groups[g].pop()]; popping an empty list is IndexError. *)
Definition table_pop (t : Table) (g : nat) : option Table :=
  match t !!! g with
  | [] => None
  | x :: l => Some (<[g := removelast (x :: l)]> t)
  end.

(** Two tables with the same sequence in every group. *)
Definition table_equiv (t1 t2 : Table) : Prop :=
  ∀ g : nat, t1 !!! g = t2 !!! g.

(** [sum(1 for person in group if person["is_external"])] *)
Definition external_count (group : list Person) : Z :=
  Z.of_nat (length (filter (λ person, is_external person) group)).

Definition group_size (group : list Person) : Z := Z.of_nat (length group).

(** ** init: the limit calculator *)

Definition init (st : State) : option State :=
  if bool_decide (M st = 0) then None            (* ZeroDivisionError *)
  else
    let total_people := M st + N st in
    let lower := total_people `div` M st in
    match Py.ceil_div total_people (M st) with
    | None => None                                (* OverflowError *)
    | Some upper =>
        match Py.ceil_div (external_num st) (M st) with
        | None => None                            (* OverflowError *)
        | Some external_upper =>
            let member_touch := total_people `mod` M st in
            let member_touch :=
              if bool_decide (member_touch = 0) then M st else member_touch in
            let external_touch := external_num st `mod` M st in
            let external_touch :=
              if bool_decide (external_touch = 0) then M st
              else external_touch in
            Some (mkState (M st) (N st) (external_num st)
                    lower upper external_upper
                    (assigned_groups st)
                    (group_leaders st) (group_members st) (groups st)
                    (filter (λ mem, is_external mem = false) (group_members st))
                    (filter (λ mem, is_external mem = true) (group_members st))
                    external_touch member_touch)
        end
    end.

(** ** assign_backtrace: the backtracking engine *)

(** [can_assign_func(person, group_id)], reading the current table. *)
Definition Admissible : Type := Person → nat → Table → option bool.

(** The loop [for group_id in range(self.M)] of [assign_backtrace];
    [rec] is the recursive call on [index + 1]. *)
Fixpoint for_groups (can_assign_func : Admissible)
    (rec : Table → option (bool * Table))
    (person : Person) (gids : list nat) (t : Table) : option (bool * Table) :=
  match gids with
  | [] => Some (false, t)
  | group_id :: rest =>
      match can_assign_func person group_id t with
      | None => None
      | Some false => for_groups can_assign_func rec person rest t
      | Some true =>
          match rec (table_append t group_id person) with
          | None => None
          | Some (true, t') => Some (true, t')
          | Some (false, t') =>
              match table_pop t' group_id with
              | None => None
              | Some t'' => for_groups can_assign_func rec person rest t''
              end
          end
      end
  end.

(** The recursion, on a bound of its depth. *)
Fixpoint assign_backtrace_fuel (fuel : nat) (m : Z)
    (can_assign_func : Admissible) (people : list Person)
    (index : nat) (t : Table) : option (bool * Table) :=
  match fuel with
  | O => None
  | S fuel' =>
      if bool_decide (index = length people) then Some (true, t)
      else
        match people !! index with
        | None => None                              (* IndexError *)
        | Some person =>
            for_groups can_assign_func
              (assign_backtrace_fuel fuel' m can_assign_func people (S index))
              person (group_ids m) t
        end
  end.

(** [assign_backtrace(index, people, can_assign_func)] with [self.M = m],
    started on table [t].  The depth of the recursion is at most
    [len(people) - index + 1]; see [assign_backtrace_unfold]. *)
Definition assign_backtrace (m : Z) (can_assign_func : Admissible)
    (people : list Person) (index : nat) (t : Table) : option (bool * Table) :=
  assign_backtrace_fuel (S (length people - index)) m
    can_assign_func people index t.

(** ** The phase predicates *)

(** [person["province"] in self.groups[group_id]] *)
Definition province_conflict (st : State) (person : Person) (group_id : nat)
    : option bool :=
  excl ← groups st !! group_id;
  Some (bool_decide (province person ∈ excl)).

(** One round of the loop of [get_group_touch_limit]; [measure] is the
    tally of a group and [limit] the ceiling it is compared with. *)
Definition touch_step (measure : list Person → Z) (limit : Z) (t : Table)
    (group_id : nat) (acc : bool * Z) (group_id_ : nat) : bool * Z :=
  let num := measure (t !!! group_id_) in
  let is_this_group_touched :=
    if bool_decide (group_id_ = group_id) && bool_decide (limit ≤ num)
    then true else acc.1 in
  let used_group_touched_num :=
    if bool_decide (limit ≤ num) then acc.2 + 1 else acc.2 in
  (is_this_group_touched, used_group_touched_num).

Definition touch_limit (measure : list Person → Z) (limit : Z) (m : Z)
    (t : Table) (group_id : nat) : bool * Z :=
  foldl (touch_step measure limit t group_id) (false, 0) (group_ids m).

(** Phase 1 *)
Definition leaders_can_assign_func (st : State) : Admissible :=
  λ (person : Person) (group_id : nat) (t : Table),
    conflict ← province_conflict st person group_id;
    if conflict : bool then Some false
    else if bool_decide (1 ≤ group_size (t !!! group_id)) then Some false
    else Some true.

(** Phase 2 *)
Definition externals_get_group_touch_limit (st : State) (t : Table)
    (group_id : nat) : bool * Z :=
  touch_limit external_count (group_external_upper_limit st) (M st) t group_id.

Definition get_group_external_num (t : Table) (group_id : nat) : Z :=
  external_count (t !!! group_id).

Definition externals_can_assign_func (st : State) : Admissible :=
  λ (person : Person) (group_id : nat) (t : Table),
    conflict ← province_conflict st person group_id;
    if conflict : bool then Some false
    else
      let this_group_external_num := get_group_external_num t group_id in
      if bool_decide (group_external_upper_limit st ≤ this_group_external_num)
      then Some false
      else if bool_decide
                (group_person_upper_limit st ≤ group_size (t !!! group_id))
      then Some false
      else
        let used_group_touched_num :=
          (externals_get_group_touch_limit st t group_id).2 in
        if bool_decide
             (group_external_upper_limit st ≤ this_group_external_num + 1)
           && bool_decide
             (max_group_external_touch_upper_limit st ≤ used_group_touched_num)
        then Some false
        else Some true.

(** Phase 3 *)
Definition members_get_group_touch_limit (st : State) (t : Table)
    (group_id : nat) : bool * Z :=
  touch_limit group_size (group_person_upper_limit st) (M st) t group_id.

Definition members_can_assign_func (st : State) : Admissible :=
  λ (person : Person) (group_id : nat) (t : Table),
    conflict ← province_conflict st person group_id;
    if conflict : bool then Some false
    else
      let current_member_num := group_size (t !!! group_id) in
      if bool_decide (group_person_upper_limit st ≤ current_member_num)
      then Some false
      else
        let used_group_touched_num :=
          (members_get_group_touch_limit st t group_id).2 in
        if bool_decide (group_person_upper_limit st ≤ current_member_num + 1)
           && bool_decide
             (max_group_member_touch_upper_limit st ≤ used_group_touched_num)
        then Some false
        else Some true.

(** A phase: the engine from index 0 on the shared table. *)
Definition run_phase (st : State) (can_assign_func : Admissible)
    (people : list Person) : option (bool * State) :=
  match assign_backtrace (M st) can_assign_func people 0 (assigned_groups st) with
  | None => None
  | Some (ok, t) => Some (ok, set_assigned_groups st t)
  end.

Definition assign_leaders (st : State) : option (bool * State) :=
  run_phase st (leaders_can_assign_func st) (group_leaders st).

Definition assign_externals (st : State) : option (bool * State) :=
  run_phase st (externals_can_assign_func st) (group_members_external st).

Definition assign_members (st : State) : option (bool * State) :=
  run_phase st (members_can_assign_func st) (group_members_no_external st).


(** ** check: the validator *)

(** The loop [for person in group]; [excl] is [self.groups[group_id]],
    looked up when a person is visited. *)
Fixpoint check_people (excl : option (list string)) (group : list Person)
    (total_people external_num : Z) : Py.flow (Z * Z) :=
  match group with
  | [] => Py.Continue (total_people, external_num)
  | person :: rest =>
      let total_people := total_people + 1 in
      let external_num :=
        if is_external person then external_num + 1 else external_num in
      match excl with
      | None => Py.Raise                                  (* IndexError *)
      | Some provinces =>
          if bool_decide (province person ∈ provinces) then Py.Return false
          else check_people excl rest total_people external_num
      end
  end.

(** The loop [for group_id in range(self.M)]. *)
Fixpoint check_groups (st : State) (gids : list nat) (total_people : Z)
    (lowest_group_person_num highest_group_person_num : Py.num)
    : Py.flow (Z * Py.num * Py.num) :=
  match gids with
  | [] =>
      Py.Continue
        (total_people, lowest_group_person_num, highest_group_person_num)
  | group_id :: rest =>
      let group := assigned_groups st !!! group_id in
      let group_len := group_size group in
      if bool_decide (group_person_upper_limit st < group_len)
      then Py.Return false
      else if bool_decide (group_len < group_person_lower_limit st)
      then Py.Return false
      else
        match check_people (groups st !! group_id) group total_people 0 with
        | Py.Raise => Py.Raise
        | Py.Return b => Py.Return b
        | Py.Continue (total_people, external_num) =>
            if bool_decide (external_num < 1) then Py.Return false
            else
              check_groups st rest total_people
                (Py.min lowest_group_person_num group_len)
                (Py.max highest_group_person_num group_len)
        end
  end.

Definition check (st : State) : option bool :=
  match check_groups st (group_ids (M st)) 0 Py.PosInf Py.NegInf with
  | Py.Raise => None
  | Py.Return b => Some b
  | Py.Continue (total_people, lowest, highest) =>
      if bool_decide (total_people ≠ M st + N st) then Some false
      else if Py.diff_gt_1 highest lowest then Some false
      else Some true
  end.

(** ** format_output *)

Definition external_tag (person : Person) : string :=
  if is_external person then "（外部）" else EmptyString.

Definition newline : string := String (Ascii.ascii_of_nat 10) EmptyString.

(** One line of the output; [assigned_groups[i][0]] of an empty group is
    IndexError. *)
Definition format_group (i : nat) (group : list Person) : option string :=
  match group with
  | [] => None
  | leader :: members =>
      let leader_output := "组长：" +:+ name leader +:+ external_tag leader in
      let members_output :=
        String.concat ", "
          ((λ member, name member +:+ external_tag member) <$> members) in
      Some ("第" +:+ pretty (i + 1)%nat +:+ "组：" +:+ leader_output
            +:+ "; 组员：" +:+ members_output)
  end.

Definition format_output (st : State) : option string :=
  output ← mapM (λ i, format_group i (assigned_groups st !!! i))
              (group_ids (M st));
  Some (String.concat newline output).

(** ** The messages of run *)

Definition msg_leaders_failed : string :=
  "无法找到匹配的分配方式 (分配组长失败)".
Definition msg_externals_failed : string :=
  "无法找到匹配的分配方式 (分配外部专家失败)".
Definition msg_members_failed : string :=
  "无法找到匹配的分配方式 (分配普通组员失败)".
Definition msg_check_failed : string :=
  "成功找到分配方式，但最终校验失败，可能存在逻辑错误。".

Section Pipeline.

Context {rt : Runtime}.

(** ** parse_input *)

(** [get_person_info(text)]; [None] is ValueError. *)
Definition get_person_info (text : string) : option Person :=
  let parts := str_split text in
  if bool_decide (length parts ≠ 2%nat ∧ length parts ≠ 3%nat) then None
  else
    name ← parts !! 0%nat;
    province ← parts !! 1%nat;
    Some (mkPerson name province
            (bool_decide (length parts = 3%nat ∧ parts !! 2%nat = Some "外部"))).

(** The loops [for i in range(..)] that read the leaders and members:
    the persons read so far and the running [external_num]. *)
Fixpoint read_people (lines : list string) (indices : list Z)
    (people : list Person) (external_num : Z) : option (list Person * Z) :=
  match indices with
  | [] => Some (people, external_num)
  | i :: rest =>
      line ← Py.getitem lines i;
      person ← get_person_info line;
      read_people lines rest (people ++ [person])
        (if is_external person then external_num + 1 else external_num)
  end.

Definition parse_input (st : State) (input_text : string) : option State :=
  let lines :=
    filter (λ line, line ≠ EmptyString)
           (str_strip <$> str_splitlines input_text) in
  m ← lines !! 0%nat ≫= str_int;
  n ← lines !! 1%nat ≫= str_int;
  let lines := drop 2 lines in
  leaders ← read_people lines (Py.range 0 m) [] 0;
  members ← read_people lines (Py.range m (m + n)) [] leaders.2;
  let start_index := m + n in
  let end_index := m + n + m in
  if bool_decide (Z.of_nat (length lines) < end_index) then None
  else
    let gs := str_split <$> Py.slice lines start_index end_index in
    if bool_decide (Z.of_nat (length gs) ≠ m) then None
    else
      Some (mkState m n members.2
              (group_person_lower_limit st) (group_person_upper_limit st)
              (group_external_upper_limit st)
              ∅ leaders.1 members.1 gs
              (group_members_no_external st) (group_members_external st)
              (max_group_external_touch_upper_limit st)
              (max_group_member_touch_upper_limit st)).

(** ** shuffle *)

Definition shuffle (seed : Z) (st : State) : State :=
  let s0 := random_seed seed in
  let leaders := random_shuffle Person s0 (group_leaders st) in
  let members := random_shuffle Person leaders.2 (group_members st) in
  mkState (M st) (N st) (external_num st)
    (group_person_lower_limit st) (group_person_upper_limit st)
    (group_external_upper_limit st) (assigned_groups st)
    leaders.1 members.1 (groups st)
    (group_members_no_external st) (group_members_external st)
    (max_group_external_touch_upper_limit st)
    (max_group_member_touch_upper_limit st).

(** ** run *)

(** The phases and the validation, on an initialised state. *)
Definition run_phases (st : State) : option (string * State) :=
  match assign_leaders st with
  | None => None
  | Some (false, st) => Some (msg_leaders_failed, st)
  | Some (true, st) =>
      match assign_externals st with
      | None => None
      | Some (false, st) => Some (msg_externals_failed, st)
      | Some (true, st) =>
          match assign_members st with
          | None => None
          | Some (false, st) => Some (msg_members_failed, st)
          | Some (true, st) =>
              match check st with
              | None => None
              | Some false => Some (msg_check_failed, st)
              | Some true =>
                  match format_output st with
                  | None => None
                  | Some res => Some (res, st)
                  end
              end
          end
      end
  end.

(** [run(seed, text)] on an object in state [st]: the returned string
    and the state the object is left in. *)
Definition run (st : State) (seed : Z) (text : string)
    : option (string * State) :=
  st ← parse_input st text;
  st ← init (shuffle seed st);
  run_phases st.

End Pipeline.

End GroupGeneration.

(** ** A reference runtime

    The text primitives restricted to ASCII white space and decimal
    digits, and a generator whose shuffle leaves the list as it is (as
    [random.shuffle] does on every list of at most one element).  A text
    of 2^52 lines or more, which no memory holds, is given no line. *)

Module RefRuntime.

Definition is_space (c : Ascii.ascii) : bool :=
  let n := Ascii.nat_of_ascii c in
  bool_decide (n = 32 ∨ (9 ≤ n ∧ n ≤ 13))%nat.

Definition push (w : string) (c : Ascii.ascii) : string := w +:+ String c EmptyString.

Fixpoint lines_from (s : string) (cur : string) : list string :=
  match s with
  | EmptyString => if bool_decide (cur = EmptyString) then [] else [cur]
  | String c s' =>
      if bool_decide (Ascii.nat_of_ascii c = 10%nat)
      then cur :: lines_from s' EmptyString
      else lines_from s' (push cur c)
  end.

Definition splitlines (s : string) : list string :=
  let l := lines_from s EmptyString in
  if bool_decide (Z.of_nat (length l) < 2 ^ 52)%Z then l else [].

Lemma splitlines_bound (s : string) :
  (Z.of_nat (length (splitlines s)) < 2 ^ 52)%Z.
Proof. unfold splitlines. by case_bool_decide. Qed.

Fixpoint skip_spaces (l : list Ascii.ascii) : list Ascii.ascii :=
  match l with
  | c :: l' => if is_space c then skip_spaces l' else l
  | [] => []
  end.

Definition strip (s : string) : string :=
  String.string_of_list_ascii
    (rev (skip_spaces (rev (skip_spaces (String.list_ascii_of_string s))))).

Fixpoint words_from (s : string) (cur : string) : list string :=
  match s with
  | EmptyString => if bool_decide (cur = EmptyString) then [] else [cur]
  | String c s' =>
      if is_space c
      then (if bool_decide (cur = EmptyString) then [] else [cur])
             ++ words_from s' EmptyString
      else words_from s' (push cur c)
  end.

Definition split (s : string) : list string := words_from s EmptyString.

Fixpoint digits_from (s : string) (acc : Z) : option Z :=
  match s with
  | EmptyString => Some acc
  | String c s' =>
      let n := Ascii.nat_of_ascii c in
      if bool_decide (48 ≤ n ∧ n ≤ 57)%nat
      then digits_from s' (10 * acc + Z.of_nat (n - 48))%Z
      else None
  end.

Definition int (s : string) : option Z :=
  match s with
  | EmptyString => None
  | String c s' =>
      if bool_decide (Ascii.nat_of_ascii c = 45%nat)
      then (if bool_decide (s' = EmptyString) then None
            else Z.opp <$> digits_from s' 0%Z)
      else digits_from s 0%Z
  end.

Definition runtime : Runtime := {|
  str_splitlines := splitlines;
  str_splitlines_bound := splitlines_bound;
  str_strip := strip;
  str_split := split;
  str_int := int;
  rng := unit;
  random_seed := λ _, tt;
  random_shuffle := λ A s l, (l, s)
|}.

End RefRuntime.

Import GroupGeneration.
Local Open Scope Z_scope.

(** ** Notions of the specification *)

(** The sequence of group [g] in the table of [st]. *)
Definition group_of (st : State) (g : nat) : list Person :=
  assigned_groups st !!! g.

(** Number of people placed in the groups [gids] of a table. *)
Definition people_in (t : Table) (gids : list nat) : nat :=
  sum_list ((λ g, length (t !!! g)) <$> gids).

(** Number of people placed in the groups [0 .. m-1] of a table. *)
Definition occupancy (m : Z) (t : Table) : nat := people_in t (group_ids m).

(** Sizes of the groups [gids], in order. *)
Definition sizes_of (st : State) (gids : list nat) : list Z :=
  (λ g, group_size (group_of st g)) <$> gids.

(** What one round of the validator's loop requires of its group. *)
Definition group_passes (st : State) (g : nat) : Prop :=
  (group_person_lower_limit st ≤ group_size (group_of st g)
   ∧ group_size (group_of st g) ≤ group_person_upper_limit st)
  ∧ 1 ≤ external_count (group_of st g)
  ∧ ∀ person, person ∈ group_of st g →
      ∃ excl, groups st !! g = Some excl ∧ province person ∉ excl.

Definition total_placed (st : State) : Z :=
  Z.of_nat (occupancy (M st) (assigned_groups st)).

(** What the validator certifies. *)
Record accepted (st : State) : Prop := {
  accepted_size : ∀ g, g ∈ group_ids (M st) →
    group_person_lower_limit st ≤ group_size (group_of st g)
    ∧ group_size (group_of st g) ≤ group_person_upper_limit st;
  accepted_spread : ∀ g g', g ∈ group_ids (M st) → g' ∈ group_ids (M st) →
    group_size (group_of st g) - group_size (group_of st g') ≤ 1;
  accepted_external : ∀ g, g ∈ group_ids (M st) →
    1 ≤ external_count (group_of st g);
  accepted_province : ∀ g person,
    g ∈ group_ids (M st) → person ∈ group_of st g →
    ∃ excl, groups st !! g = Some excl ∧ province person ∉ excl;
  accepted_total : total_placed st = M st + N st
}.

(** The invariant of the specification: [accepted] and the ceiling on the
    external count of every group. *)
Definition specified_invariant (st : State) : Prop :=
  accepted st
  ∧ ∀ g, g ∈ group_ids (M st) →
      external_count (group_of st g) ≤ group_external_upper_limit st.

(** The five derived limits. *)
Definition limits (st : State) : Z * Z * Z * Z * Z :=
  (group_person_lower_limit st, group_person_upper_limit st,
   group_external_upper_limit st,
   max_group_member_touch_upper_limit st,
   max_group_external_touch_upper_limit st).

(** A remainder, with zero standing for the whole group count. *)
Definition remapped (r m : Z) : Z := if bool_decide (r = 0) then m else r.

(** Number of groups whose external count has reached the ceiling. *)
Definition touched_externals (st : State) (t : Table) : Z :=
  Z.of_nat (length (filter
    (λ g, group_external_upper_limit st ≤ external_count (t !!! g))
    (group_ids (M st)))).

(** The same state with other leader and member lists. *)
Definition with_roster (st : State) (leaders members : list Person) : State :=
  mkState (M st) (N st) (external_num st)
    (group_person_lower_limit st) (group_person_upper_limit st)
    (group_external_upper_limit st) (assigned_groups st)
    leaders members (groups st)
    (filter (λ mem, is_external mem = false) members)
    (filter (λ mem, is_external mem = true) members)
    (max_group_external_touch_upper_limit st)
    (max_group_member_touch_upper_limit st).

(** A predicate that reads the table only through the group sequences. *)
Definition extensional (can : Admissible) : Prop :=
  ∀ person g t1 t2, table_equiv t1 t2 → can person g t1 = can person g t2.

(** A predicate that never raises on the groups of [range(m)]. *)
Definition total_predicate (m : Z) (can : Admissible) : Prop :=
  ∀ person g t, g ∈ group_ids m → is_Some (can person g t).

(** A search whose failure leaves every group as it found it. *)
Definition restores (rec : Table → option (bool * Table)) : Prop :=
  ∀ t t', rec t = Some (false, t') → table_equiv t' t.

(** Placing [people], in order, into the groups [choice], every placement
    admissible on the table it is made on. *)
Fixpoint place_all (can : Admissible) (people : list Person)
    (choice : list nat) (t : Table) : option Table :=
  match people, choice with
  | [], [] => Some t
  | person :: people', g :: choice' =>
      match can person g t with
      | Some true => place_all can people' choice' (table_append t g person)
      | _ => None
      end
  | _, _ => None
  end.

(** [choice] names groups of [range(m)] only and can be placed. *)
Definition admissible_choice (m : Z) (can : Admissible)
    (people : list Person) (choice : list nat) (t : Table) : Prop :=
  Forall (λ g, g ∈ group_ids m) choice
  ∧ is_Some (place_all can people choice t).

(** Lexicographic order on choices: lowest group id first. *)
Fixpoint lex_le (c1 c2 : list nat) : Prop :=
  match c1, c2 with
  | [], _ => True
  | _ :: _, [] => False
  | g1 :: c1', g2 :: c2' => (g1 < g2)%nat ∨ (g1 = g2 ∧ lex_le c1' c2')
  end.

(** What a search for [people] from table [t] may answer: on success the
    table of the lowest admissible choice, on failure the table it started
    from, no choice being admissible. *)
Definition search_result (m : Z) (can : Admissible) (people : list Person)
    (t : Table) (ok : bool) (t' : Table) : Prop :=
  if ok
  then ∃ choice tr,
         Forall (λ g, g ∈ group_ids m) choice
         ∧ place_all can people choice t = Some tr
         ∧ table_equiv tr t'
         ∧ ∀ choice', admissible_choice m can people choice' t →
                      lex_le choice choice'
  else table_equiv t' t
       ∧ ∀ choice, Forall (λ g, g ∈ group_ids m) choice →
                   place_all can people choice t = None.

(** The table while the leaders [placed] are in: at most one person per
    group, each a placed leader whose province the group does not exclude. *)
Definition leaders_placed (st : State) (placed : list Person) (t : Table)
    : Prop :=
  (∀ g, (length (t !!! g) ≤ 1)%nat)
  ∧ (∀ g person, person ∈ t !!! g →
       person ∈ placed
       ∧ ∃ excl, groups st !! g = Some excl ∧ province person ∉ excl)
  ∧ occupancy (M st) t = length placed.

(** How a run of the phases can end: the string returned, the state left,
    and the calls that were made to get there. *)
Inductive outcome (st1 : State) : string → State → Prop :=
| leaders_failed st' :
    assign_leaders st1 = Some (false, st') →
    outcome st1 msg_leaders_failed st'
| externals_failed s2 st' :
    assign_leaders st1 = Some (true, s2) →
    assign_externals s2 = Some (false, st') →
    outcome st1 msg_externals_failed st'
| members_failed s2 s3 st' :
    assign_leaders st1 = Some (true, s2) →
    assign_externals s2 = Some (true, s3) →
    assign_members s3 = Some (false, st') →
    outcome st1 msg_members_failed st'
| check_failed s2 s3 st' :
    assign_leaders st1 = Some (true, s2) →
    assign_externals s2 = Some (true, s3) →
    assign_members s3 = Some (true, st') →
    check st' = Some false →
    outcome st1 msg_check_failed st'
| table_returned s2 s3 st' res :
    assign_leaders st1 = Some (true, s2) →
    assign_externals s2 = Some (true, s3) →
    assign_members s3 = Some (true, st') →
    check st' = Some true →
    format_output st' = Some res →
    outcome st1 res st'.

(** The four failure messages of [run]. *)
Definition failure_messages : list string :=
  [msg_leaders_failed; msg_externals_failed; msg_members_failed;
   msg_check_failed].

(** ** Sample data *)

Module Sample.

Definition L0 := mkPerson "L0" "P" true.
Definition L1 := mkPerson "L1" "P" false.
Definition L2 := mkPerson "L2" "P" false.
Definition A := mkPerson "A" "P" true.
Definition B := mkPerson "B" "P" true.
Definition C := mkPerson "C" "P" true.
Definition D := mkPerson "D" "P" true.

(** Three leaders, four members, five externals, as [parse_input] and
    [init] leave them; nobody is from province X. *)
Definition parsed : State :=
  mkState 3 4 5 2 3 2 ∅ [L0; L1; L2] [A; B; C; D] [["X"]; ["X"]; ["X"]]
    [] [A; B; C; D] 2 1.

(** Group 0 holds three externals, one more than the ceiling of two. *)
Definition over_quota : State :=
  set_assigned_groups parsed
    (<[0%nat := [L0; A; B]]> (<[1%nat := [L1; C]]> (<[2%nat := [L2; D]]> ∅))).

Definition K := mkPerson "K" "P" true.
Definition L := mkPerson "L" "P" false.

(** One group whose first element is the member, not the leader. *)
Definition member_first : State :=
  mkState 1 1 1 2 2 1 (<[0%nat := [K; L]]> ∅) [L] [K] [["X"]] [] [K] 1 1.

(** One group and two leaders: the second cannot be placed. *)
Definition two_leaders : State :=
  mkState 1 0 0 1 1 0 ∅ [L; L1] [] [["X"]] [] [] 1 1.


(** The text of one leader, no member, and the exclusion list of the
    only group: no external at all. *)
Definition no_external_text : string :=
  "1" +:+ newline +:+ "0" +:+ newline +:+ "L A" +:+ newline +:+ "B".

(** The scenario of the specification: two groups, three members. *)
Definition scenario_text : string :=
  "2" +:+ newline +:+ "3" +:+ newline
  +:+ "L1 PA" +:+ newline +:+ "L2 PB" +:+ newline
  +:+ "A PA 外部" +:+ newline +:+ "B PC 外部" +:+ newline
  +:+ "C PB" +:+ newline +:+ "PB" +:+ newline +:+ "PA".

End Sample.

(** ** Notions for the rest of the code *)

(** The people of the groups [0 .. m-1], group after group. *)
Definition all_placed (m : Z) (t : Table) : list Person :=
  concat ((λ g, t !!! g) <$> group_ids m).

(** Number of groups whose size has reached the upper limit. *)
Definition touched_sizes (st : State) (t : Table) : Z :=
  Z.of_nat (length (filter
    (λ g, group_person_upper_limit st ≤ group_size (t !!! g))
    (group_ids (M st)))).

(** Nobody in the table is from a province their group excludes. *)
Definition no_conflict (st : State) (t : Table) : Prop :=
  ∀ g person, person ∈ t !!! g →
    ∃ excl, groups st !! g = Some excl ∧ province person ∉ excl.

(** The lines [parse_input] works on: stripped, blank ones dropped. *)
Definition nonblank_lines {rt : Runtime} (text : string) : list string :=
  filter (λ line, line ≠ EmptyString) (str_strip <$> str_splitlines text).

(** One for a true proposition, zero for a false one. *)
Definition indicator (P : Prop) `{!Decision P} : Z := if decide P then 1 else 0.

(** The three messages of a failed phase. *)
Definition phase_failures : list string :=
  [msg_leaders_failed; msg_externals_failed; msg_members_failed].

(** The state the phases of a run start from, [st0] being what
    [parse_input] returned and [st1] what [shuffle] and [init] made of it. *)
Record started (st0 st1 : State) : Prop := {
  started_M : M st1 = M st0;
  started_N : N st1 = N st0;
  started_M_pos : 1 ≤ M st0;
  started_table : ∀ g, assigned_groups st1 !!! g = [];
  started_leaders : group_leaders st1 ≡ₚ group_leaders st0;
  started_members : group_members st1 ≡ₚ group_members st0;
  started_n_leaders : length (group_leaders st1) = Z.to_nat (M st1);
  started_n_members : length (group_members st0) = Z.to_nat (N st0);
  started_groups : length (groups st1) = Z.to_nat (M st1);
  started_external :
    external_num st1
    = external_count (group_leaders st1) + external_count (group_members st1);
  started_split_ext :
    group_members_external st1
    = filter (λ mem, is_external mem = true) (group_members st1);
  started_split_no :
    group_members_no_external st1
    = filter (λ mem, is_external mem = false) (group_members st1);
  started_upper :
    0 ≤ N st1 →
    (group_person_upper_limit st1 - 1) * M st1 < M st1 + N st1
    ∧ M st1 + N st1 ≤ group_person_upper_limit st1 * M st1;
  started_lower :
    group_person_lower_limit st1 = (M st1 + N st1) `div` M st1;
  started_ceiling :
    (group_external_upper_limit st1 - 1) * M st1 < external_num st1
    ∧ external_num st1 ≤ group_external_upper_limit st1 * M st1
}.

Module MoreSamples.

(** Two groups that both exclude the province of the only external. *)
Definition blocked_text : string :=
  "2" +:+ newline +:+ "1" +:+ newline
  +:+ "L1 PA" +:+ newline +:+ "L2 PB" +:+ newline
  +:+ "A PC 外部" +:+ newline +:+ "PC" +:+ newline +:+ "PC".

(** One group for 2^1024 members: the quotient is beyond the floats. *)
Definition flood : State :=
  mkState 1 (2 ^ 1024) 0 0 0 0 ∅ [] [] [] [] [] 0 0.

Definition W := mkPerson "W" "P" false.

(** Two groups after the external phase, each with its leader and one
    external; the member W is still to be placed. *)
Definition member_waiting : State :=
  mkState 2 3 2 2 3 1
    (<[0%nat := [Sample.L1; Sample.A]]> (<[1%nat := [Sample.L2; Sample.B]]> ∅))
    [Sample.L1; Sample.L2] [Sample.A; Sample.B; W] [["X"]; ["X"]]
    [W] [Sample.A; Sample.B] 2 1.

End MoreSamples.

(** * Properties *)

(** ** The limit calculator *)

Section LimitCalculator.


(** *** The quotient of two integers as a binary64 value *)

Lemma round_half_even_cases (num den : Z) :
  0 < den →
  let q := num `div` den in
  let r := num `mod` den in
  num = q * den + r ∧ 0 ≤ r < den
  ∧ ((Py.round_half_even num den = q ∧ 2 * r ≤ den)
     ∨ (Py.round_half_even num den = q + 1 ∧ den ≤ 2 * r)).
Proof.
  intros Hden q r. subst q r. unfold Py.round_half_even.
  pose proof (Z.div_mod num den ltac:(lia)) as Hdm.
  pose proof (Z.mod_pos_bound num den Hden) as Hr.
  split; [lia|]. split; [lia|].
  case_bool_decide as H1; cbn.
  { right. lia. }
  case_bool_decide as H2; cbn.
  - destruct (Z.odd _); [right|left]; lia.
  - left. lia.
Qed.

Lemma quotient_exponent_range (x y : Z) :
  Z.log2 x - Z.log2 y - 1 ≤ Py.quotient_exponent x y ≤ Z.log2 x - Z.log2 y.
Proof. unfold Py.quotient_exponent. case_bool_decide; lia. Qed.

Lemma quotient_exponent_below (x y : Z) :
  0 < x → 0 < y →
  let e := Py.quotient_exponent x y in
  y * 2 ^ Z.max e 0 ≤ x * 2 ^ Z.max (- e) 0.
Proof.
  intros Hx Hy e. subst e. unfold Py.quotient_exponent.
  case_bool_decide as H; [done|].
  destruct (Z.log2_spec x Hx) as [Hx1 Hx2].
  destruct (Z.log2_spec y Hy) as [Hy1 Hy2].
  pose proof (Z.log2_nonneg x) as Hlx. pose proof (Z.log2_nonneg y) as Hly.
  set (lx := Z.log2 x) in *. set (ly := Z.log2 y) in *.
  rewrite Z.pow_succ_r in Hx2, Hy2 by done.
  destruct (decide (1 ≤ lx - ly)) as [Hd|Hd].
  - rewrite (Z.max_l (lx - ly - 1) 0), (Z.max_r (- (lx - ly - 1)) 0) by lia.
    rewrite Z.mul_1_r.
    assert (2 ^ lx = 2 * 2 ^ ly * 2 ^ (lx - ly - 1)) as Hp.
    { rewrite <- Z.pow_succ_r, <- Z.pow_add_r by lia. f_equal. lia. }
    assert (0 < 2 ^ (lx - ly - 1)) by (apply Z.pow_pos_nonneg; lia).
    nia.
  - rewrite (Z.max_r (lx - ly - 1) 0), (Z.max_l (- (lx - ly - 1)) 0) by lia.
    rewrite Z.mul_1_r.
    assert (2 * 2 ^ ly = 2 ^ lx * 2 ^ (- (lx - ly - 1))) as Hp.
    { rewrite <- Z.pow_succ_r, <- Z.pow_add_r by lia. f_equal. lia. }
    assert (0 < 2 ^ (- (lx - ly - 1))) by (apply Z.pow_pos_nonneg; lia).
    nia.
Qed.

Lemma log2_below (x n : Z) : 0 < x → 0 ≤ n → x < 2 ^ n → Z.log2 x < n.
Proof. intros Hx Hn H. by apply Z.log2_lt_pow2. Qed.

(** Below 2^53 the rounding of the quotient never reaches the next
    integer: the ceiling of the binary64 quotient is the exact one. *)
Lemma ceil_div_exact (a b : Z) :
  0 ≤ a < 2 ^ 53 → 1 ≤ b < 2 ^ 53 →
  ∃ c, Py.ceil_div a b = Some c ∧ (c - 1) * b < a ∧ a ≤ c * b.
Proof.
  intros Ha Hb. unfold Py.ceil_div, Py.true_div.
  rewrite bool_decide_eq_false_2 by lia.
  case_bool_decide as Ha0.
  { subst a. exists 0. cbn. split; [done|]. lia. }
  rewrite (Z.abs_eq a), (Z.abs_eq b) by lia.
  rewrite (Z.sgn_pos a), (Z.sgn_pos b) by lia.
  pose proof (quotient_exponent_range a b) as He.
  pose proof (quotient_exponent_below a b ltac:(lia) ltac:(lia)) as Hbelow.
  cbn zeta in Hbelow.
  pose proof (log2_below a 53 ltac:(lia) ltac:(lia) ltac:(lia)) as Hla.
  pose proof (log2_below b 53 ltac:(lia) ltac:(lia) ltac:(lia)) as Hlb.
  pose proof (Z.log2_nonneg a). pose proof (Z.log2_nonneg b).
  set (e := Py.quotient_exponent a b) in *.
  rewrite (Z.max_l (e - 52) (-1074)) by lia.
  set (s := 52 - e).
  assert (0 ≤ s) as Hs by (unfold s; lia).
  rewrite (Z.max_l (- (e - 52)) 0), (Z.max_r (e - 52) 0) by lia.
  replace (- (e - 52)) with s by (unfold s; lia).
  rewrite Z.pow_0_r, !Z.mul_1_r.
  assert (0 < 2 ^ s) as HP by (apply Z.pow_pos_nonneg; lia).
  (* the divisor is below twice the scale *)
  assert (b < 2 * 2 ^ s) as Hsmall.
  { rewrite <- Z.pow_succ_r by done.
    destruct (decide (0 ≤ e)) as [He0|He0].
    - rewrite (Z.max_l e 0), (Z.max_r (- e) 0), Z.pow_0_r, Z.mul_1_r in Hbelow by lia.
      assert (2 ^ 53 = 2 ^ e * 2 ^ Z.succ s) as E.
      { rewrite <- Z.pow_add_r by lia. f_equal. unfold s. lia. }
      assert (0 < 2 ^ e) by (apply Z.pow_pos_nonneg; lia).
      nia.
    - rewrite (Z.max_r e 0), (Z.max_l (- e) 0), Z.pow_0_r, Z.mul_1_r in Hbelow by lia.
      assert (2 ^ Z.succ s = 2 ^ 53 * 2 ^ (- e)) as E.
      { rewrite <- Z.pow_add_r by lia. f_equal. unfold s. lia. }
      assert (0 < 2 ^ (- e)) by (apply Z.pow_pos_nonneg; lia).
      nia. }
  destruct (round_half_even_cases (a * 2 ^ s) b ltac:(lia)) as (Hdm & Hr & Hm).
  set (m := Py.round_half_even (a * 2 ^ s) b) in *.
  set (q := (a * 2 ^ s) `div` b) in *. set (r := (a * 2 ^ s) `mod` b) in *.
  set (P := 2 ^ s) in *.
  assert (0 ≤ q) as Hq by (apply Z.div_pos; lia).
  rewrite bool_decide_eq_false_2; last first.
  { rewrite Z.pow_add_r by lia. fold P.
    assert (2 ^ 53 < 2 ^ 1024) by (apply Z.pow_lt_mono_r; lia).
    assert (q * b ≤ a * P) by lia.
    assert (q ≤ a * P) by nia.
    nia. }
  cbn. unfold Py.ceil. cbn.
  rewrite (Z.max_l (- (e - 52)) 0), (Z.max_r (e - 52) 0) by lia.
  replace (- (e - 52)) with s by (unfold s; lia).
  rewrite Z.pow_0_r, !Z.mul_1_r, Z.mul_1_l. fold P.
  eexists. split; [done|].
  set (c := - ((- m) `div` P)).
  assert ((c - 1) * P < m ∧ m ≤ c * P) as [Hc1 Hc2].
  { subst c. pose proof (Z.div_mod (- m) P ltac:(lia)).
    pose proof (Z.mod_pos_bound (- m) P HP). lia. }
  clearbody c m q r P.
  split.
  - (* the ceiling is not too large *)
    destruct (decide ((c - 1) * b < a)) as [|Hn]; [done|exfalso].
    assert (a * P ≤ (c - 1) * P * b) by nia.
    assert ((c - 1) * P * b ≤ (m - 1) * b) by nia.
    destruct Hm as [[-> ?]|[-> ?]]; nia.
  - (* the rounding does not fall to the integer below *)
    destruct (decide (a ≤ c * b)) as [|Hn]; [done|exfalso].
    assert (c * b + 1 ≤ a) by lia.
    assert (c * P * b + P ≤ a * P) by nia.
    assert (m * b ≤ c * P * b) by nia.
    destruct Hm as [[-> ?]|[-> ?]]; nia.
Qed.

(** A quotient of moderate size is within the float range. *)
Lemma ceil_div_returns (a b : Z) :
  b ≠ 0 → Z.abs a < 2 ^ 1023 → is_Some (Py.ceil_div a b).
Proof.
  intros Hb Ha. unfold Py.ceil_div, Py.true_div.
  rewrite bool_decide_eq_false_2 by done.
  case_bool_decide as Ha0; [by eexists|].
  set (x := Z.abs a) in *. set (y := Z.abs b).
  assert (0 < x) as Hx by (unfold x; lia).
  assert (1 ≤ y) as Hy by (unfold y; lia).
  pose proof (quotient_exponent_range x y) as He.
  pose proof (log2_below x 1023 Hx ltac:(lia) Ha) as Hlx.
  pose proof (Z.log2_nonneg y).
  set (e := Py.quotient_exponent x y) in *.
  set (k := Z.max (e - 52) (-1074)).
  assert (k ≤ 970) as Hk by (unfold k; lia).
  set (kn := Z.max (- k) 0). set (kp := Z.max k 0).
  assert (0 ≤ kn) by (unfold kn; lia).
  assert (0 ≤ kp ≤ 970) as Hkp by (unfold kp; lia).
  assert (0 < 2 ^ kn) as HPn by (apply Z.pow_pos_nonneg; lia).
  assert (0 < 2 ^ kp) as HPp by (apply Z.pow_pos_nonneg; lia).
  assert (2 ^ kp ≤ 2 ^ 970) as HPp' by (apply Z.pow_le_mono_r; lia).
  assert (2 ^ 1023 = 2 ^ 53 * 2 ^ 970) as E1
    by (rewrite <- Z.pow_add_r by lia; done).
  assert (0 < 2 ^ 970) by (apply Z.pow_pos_nonneg; lia).
  assert (2 ^ 53 = 9007199254740992) as E53 by done.
  destruct (round_half_even_cases (x * 2 ^ kn) (y * 2 ^ kp) ltac:(nia))
    as (Hdm & Hr & Hm).
  set (m := Py.round_half_even (x * 2 ^ kn) (y * 2 ^ kp)) in *.
  set (q := (x * 2 ^ kn) `div` (y * 2 ^ kp)) in *.
  set (r := (x * 2 ^ kn) `mod` (y * 2 ^ kp)) in *.
  assert (0 ≤ q) as Hq by (apply Z.div_pos; nia).
  rewrite bool_decide_eq_false_2; [by eexists|].
  rewrite Z.pow_add_r by lia. replace 1024 with (Z.succ 1023) by done.
  rewrite Z.pow_succ_r by lia.
  set (Pn := 2 ^ kn) in *. set (Pp := 2 ^ kp) in *. set (B := 2 ^ 1023) in *.
  set (C := 2 ^ 970) in *.
  clearbody m q r Pn Pp B C x y.
  assert (q * Pp ≤ x * Pn) by nia.
  assert (m ≤ q + 1) by lia.
  assert (m * Pp ≤ x * Pn + Pp) by nia.
  assert (x * Pn < B * Pn) by nia.
  assert (Pp ≤ B * Pn) by nia.
  nia.
Qed.

(** A quotient of 2^1024 or more is beyond it: OverflowError. *)
Lemma ceil_div_overflow (a b : Z) :
  b ≠ 0 → 2 ^ 1024 * Z.abs b ≤ Z.abs a → Py.ceil_div a b = None.
Proof.
  intros Hb Ha. unfold Py.ceil_div, Py.true_div.
  rewrite bool_decide_eq_false_2 by done.
  set (x := Z.abs a) in *. set (y := Z.abs b) in *.
  assert (1 ≤ y) as Hy by (unfold y; lia).
  assert (0 < 2 ^ 1024) as H1024 by (apply Z.pow_pos_nonneg; lia).
  assert (0 < x) as Hx by nia.
  rewrite bool_decide_eq_false_2 by (unfold x in Hx; lia).
  pose proof (quotient_exponent_below x y Hx ltac:(lia)) as Hbelow.
  cbn zeta in Hbelow.
  assert (1024 ≤ Py.quotient_exponent x y) as He.
  { unfold Py.quotient_exponent.
    destruct (Z.log2_spec x Hx) as [Hx1 Hx2].
    destruct (Z.log2_spec y ltac:(lia)) as [Hy1 Hy2].
    pose proof (Z.log2_nonneg x). pose proof (Z.log2_nonneg y).
    set (lx := Z.log2 x) in *. set (ly := Z.log2 y) in *.
    assert (1024 + ly ≤ lx) as Hd.
    { destruct (decide (1024 + ly ≤ lx)) as [|Hn]; [done|exfalso].
      assert (2 ^ Z.succ lx ≤ 2 ^ (1024 + ly)) by (apply Z.pow_le_mono_r; lia).
      rewrite Z.pow_add_r in * by lia. nia. }
    case_bool_decide as Hc; [lia|].
    rewrite (Z.max_l (lx - ly) 0), (Z.max_r (- (lx - ly)) 0) in Hc by lia.
    rewrite Z.pow_0_r, Z.mul_1_r in Hc.
    destruct (decide (1025 ≤ lx - ly)) as [|Hn]; [lia|exfalso].
    assert (lx - ly = 1024) as E by lia. rewrite E in Hc. nia. }
  set (e := Py.quotient_exponent x y) in *.
  rewrite (Z.max_l (e - 52) (-1074)) by lia.
  rewrite (Z.max_l e 0), (Z.max_r (- e) 0), Z.pow_0_r, Z.mul_1_r in Hbelow by lia.
  rewrite (Z.max_r (- (e - 52)) 0), (Z.max_l (e - 52) 0) by lia.
  rewrite Z.pow_0_r, Z.mul_1_r, Z.add_0_r.
  assert (0 < 2 ^ (e - 52)) as HP by (apply Z.pow_pos_nonneg; lia).
  assert (2 ^ e = 2 ^ 52 * 2 ^ (e - 52)) as Ee.
  { rewrite <- Z.pow_add_r by lia. f_equal. lia. }
  assert (2 ^ 1024 ≤ 2 ^ e) as Hle by (apply Z.pow_le_mono_r; lia).
  destruct (round_half_even_cases x (y * 2 ^ (e - 52)) ltac:(nia))
    as (Hdm & Hr & Hm).
  set (m := Py.round_half_even x (y * 2 ^ (e - 52))) in *.
  set (q := x `div` (y * 2 ^ (e - 52))) in *.
  set (r := x `mod` (y * 2 ^ (e - 52))) in *.
  assert (2 ^ 52 = 4503599627370496) as E52 by done.
  rewrite bool_decide_eq_true_2; [done|].
  set (P := 2 ^ (e - 52)) in *. set (B := 2 ^ 1024) in *. set (T := 2 ^ e) in *.
  clearbody m q r P B T.
  assert (4503599627370496 ≤ q) as Hq.
  { destruct (decide (4503599627370496 ≤ q)) as [|Hn]; [done|exfalso].
    assert (q + 1 ≤ 4503599627370496) by lia.
    assert ((q + 1) * (y * P) ≤ 4503599627370496 * (y * P)) by nia.
    nia. }
  assert (q ≤ m) by lia.
  nia.
Qed.

(** *** What [init] returns *)

Lemma init_Some (st : State) (upper external_upper : Z) :
  M st ≠ 0 →
  Py.ceil_div (M st + N st) (M st) = Some upper →
  Py.ceil_div (external_num st) (M st) = Some external_upper →
  init st =
    Some (mkState (M st) (N st) (external_num st)
            ((M st + N st) `div` M st) upper external_upper
            (assigned_groups st)
            (group_leaders st) (group_members st) (groups st)
            (filter (λ mem, is_external mem = false) (group_members st))
            (filter (λ mem, is_external mem = true) (group_members st))
            (remapped (external_num st `mod` M st) (M st))
            (remapped ((M st + N st) `mod` M st) (M st))).
Proof.
  intros Hm Hu He. unfold init.
  rewrite bool_decide_eq_false_2 by done. by rewrite Hu, He.
Qed.

Lemma init_inv (st st1 : State) :
  init st = Some st1 →
  M st ≠ 0
  ∧ ∃ upper external_upper,
      Py.ceil_div (M st + N st) (M st) = Some upper
      ∧ Py.ceil_div (external_num st) (M st) = Some external_upper
      ∧ st1 = mkState (M st) (N st) (external_num st)
                ((M st + N st) `div` M st) upper external_upper
                (assigned_groups st)
                (group_leaders st) (group_members st) (groups st)
                (filter (λ mem, is_external mem = false) (group_members st))
                (filter (λ mem, is_external mem = true) (group_members st))
                (remapped (external_num st `mod` M st) (M st))
                (remapped ((M st + N st) `mod` M st) (M st)).
Proof.
  intros H. unfold init in H. case_bool_decide as HM; [done|].
  split; [done|].
  destruct (Py.ceil_div (M st + N st) (M st)) as [upper|]; [|done].
  destruct (Py.ceil_div (external_num st) (M st)) as [external_upper|]; [|done].
  exists upper, external_upper. split_and!; [done | done |].
  by injection H as <-.
Qed.

Lemma init_None (st : State) :
  init st = None ↔
  M st = 0 ∨ Py.ceil_div (M st + N st) (M st) = None
  ∨ Py.ceil_div (external_num st) (M st) = None.
Proof.
  unfold init. case_bool_decide as HM.
  { split; [by left | done]. }
  destruct (Py.ceil_div (M st + N st) (M st)) as [upper|].
  2: { split; [by right; left | done]. }
  destruct (Py.ceil_div (external_num st) (M st)) as [external_upper|].
  2: { split; [by right; right | done]. }
  split; [done|]. by intros [?|[?|?]].
Qed.





End LimitCalculator.

(** ** The phase predicates *)

Section PhasePredicates.

Lemma touch_fold_count measure limit (t : Table) g (gids : list nat) acc :
  (foldl (touch_step measure limit t g) acc gids).2
  = acc.2 + Z.of_nat (length (filter (λ g', limit ≤ measure (t !!! g')) gids)).
Proof.
  revert acc. induction gids as [|g' gids IH]; intros acc; cbn [foldl].
  - cbn. lia.
  - rewrite IH. rewrite filter_cons. unfold touch_step. cbn [snd].
    case_bool_decide; case_decide; try done; cbn [length]; lia.
Qed.

Lemma touch_limit_count measure limit m (t : Table) g :
  (touch_limit measure limit m t g).2
  = Z.of_nat (length (filter (λ g', limit ≤ measure (t !!! g')) (group_ids m))).
Proof. unfold touch_limit. rewrite touch_fold_count. cbn. lia. Qed.

Lemma province_conflict_Some st person g b :
  province_conflict st person g = Some b
  ↔ ∃ excl, groups st !! g = Some excl ∧ b = bool_decide (province person ∈ excl).
Proof.
  unfold province_conflict. destruct (groups st !! g) as [excl|]; cbn.
  - split; [intros [= <-]; eauto | intros (? & [= <-] & ->); done].
  - split; [done | intros (? & ? & _); done].
Qed.

(** C3: the predicate of the external phase accepts a person for a group
    exactly when the group has an exclusion list that does not hold the
    person's province, the group's external count is below the external
    ceiling, its size is below the upper limit, and it is not the case
    that the placement would bring the external count to the ceiling
    while the number of groups already at the ceiling has reached the
    external touch quota. *)
Theorem externals_predicate_accepts (st : State) (t : Table)
    (person : Person) (g : nat) :
  externals_can_assign_func st person g t = Some true
  ↔ (∃ excl, groups st !! g = Some excl ∧ province person ∉ excl)
    ∧ external_count (t !!! g) < group_external_upper_limit st
    ∧ group_size (t !!! g) < group_person_upper_limit st
    ∧ ¬ (group_external_upper_limit st ≤ external_count (t !!! g) + 1
         ∧ max_group_external_touch_upper_limit st ≤ touched_externals st t).
Proof.
  unfold externals_can_assign_func, externals_get_group_touch_limit,
    get_group_external_num, province_conflict.
  rewrite touch_limit_count. fold (touched_externals st t).
  destruct (groups st !! g) as [excl|]; cbn.
  2: { split; [done | intros [(? & ? & _) _]; done]. }
  repeat case_bool_decide; cbn; split; try done;
    try (intros (([= <-] & ?) & ?); naive_solver lia);
    try (intros ((? & [= <-] & ?) & ? & ? & ?); naive_solver lia).
  all: intros _; split_and!; eauto; lia.
Qed.

Lemma externals_predicate_decides (st : State) (t : Table)
    (person : Person) (g : nat) excl :
  groups st !! g = Some excl →
  ∃ b, externals_can_assign_func st person g t = Some b.
Proof.
  intros H. unfold externals_can_assign_func, province_conflict. rewrite H. cbn.
  repeat case_match; eauto.
Qed.
End PhasePredicates.

(** ** The validator *)

Section Validator.

Lemma external_count_cons person group :
  external_count (person :: group)
  = (if is_external person then 1 else 0) + external_count group.
Proof.
  unfold external_count. rewrite filter_cons.
  destruct (is_external person); case_decide; cbn [length]; try done; lia.
Qed.

Lemma group_size_cons (person : Person) group :
  group_size (person :: group) = 1 + group_size group.
Proof. unfold group_size. cbn [length]. lia. Qed.

(** The loop over the people of one group falls through exactly when no
    province is excluded, and then has counted the people and externals. *)
Lemma check_people_continue excl group total ext r :
  check_people excl group total ext = Py.Continue r
  ↔ r = (total + group_size group, ext + external_count group)
    ∧ ∀ person, person ∈ group →
        ∃ provinces, excl = Some provinces ∧ province person ∉ provinces.
Proof.
  revert total ext. induction group as [|person group IH]; intros total ext.
  - cbn. split.
    + intros [= <-]. split; [f_equal; unfold external_count, group_size; cbn; lia|].
      intros ? ?%elem_of_nil. done.
    + intros [-> _]. do 2 f_equal; unfold external_count, group_size; cbn; lia.
  - cbn [check_people]. destruct excl as [provinces|].
    2: { split; [done|]. intros [_ H].
         destruct (H person) as (? & ? & _); [left | done]. }
    case_bool_decide as Hin.
    + split; [done|]. intros [_ H].
      destruct (H person) as (? & [= <-] & ?); [left | done].
    + rewrite IH, external_count_cons, group_size_cons.
      split.
      * intros [-> H]. split.
        { f_equal; destruct (is_external person); lia. }
        intros p [->|?]%elem_of_cons; eauto.
      * intros [-> H]. split.
        { f_equal; destruct (is_external person); lia. }
        intros p ?. apply H. by right.
Qed.

Lemma check_groups_continue st gids total lo hi r :
  check_groups st gids total lo hi = Py.Continue r
  ↔ r = (total + Z.of_nat (people_in (assigned_groups st) gids),
         foldl Py.min lo (sizes_of st gids),
         foldl Py.max hi (sizes_of st gids))
    ∧ ∀ g, g ∈ gids → group_passes st g.
Proof.
  revert total lo hi. induction gids as [|g gids IH]; intros total lo hi.
  - cbn. split.
    + intros [= <-]. split; [do 2 f_equal; lia|]. intros ? ?%elem_of_nil. done.
    + intros [-> _]. do 3 f_equal. lia.
  - cbn [check_groups]. fold (group_of st g).
    case_bool_decide as Hup.
    { split; [done|]. intros [_ H]. destruct (H g) as ((? & ?) & _); [left|lia]. }
    case_bool_decide as Hlo.
    { split; [done|]. intros [_ H]. destruct (H g) as ((? & ?) & _); [left|lia]. }
    destruct (check_people _ _ _ _) as [|b|[total' ext]] eqn:Hp.
    1,2: split; [done|]; intros [_ H];
         destruct (H g) as (_ & _ & Hprov); [left|];
         assert (∃ r', check_people (groups st !! g) (group_of st g) total 0
                       = Py.Continue r') as [r' Hr'];
         [eexists; apply check_people_continue; split; [done|];
          intros p Hp'; destruct (Hprov p Hp') as (? & ? & ?); eauto
         | congruence].
    apply check_people_continue in Hp as [[= -> ->] Hprov].
    case_bool_decide as Hext.
    { split; [done|]. intros [_ H]. destruct (H g) as (_ & ? & _); [left|lia]. }
    rewrite IH.
    change (sizes_of st (g :: gids))
      with (group_size (group_of st g) :: sizes_of st gids).
    change (people_in (assigned_groups st) (g :: gids))
      with (length (group_of st g) + people_in (assigned_groups st) gids)%nat.
    cbn [foldl]. rewrite Nat2Z.inj_add. fold (group_size (group_of st g)).
    rewrite Z.add_0_l in Hext.
    assert (group_passes st g) as Hg.
    { split_and!; [lia | lia | lia |].
      intros p Hp'. destruct (Hprov p Hp') as (? & ? & ?); eauto. }
    split.
    + intros [-> H]. split.
      * do 2 f_equal. lia.
      * intros g' [->|?]%elem_of_cons; auto.
    + intros [-> H]. split.
      * do 2 f_equal. lia.
      * intros g' ?. apply H. by right.
Qed.

Lemma foldl_max_Int S : ∀ h,
  ∃ h', foldl Py.max (Py.Int h) S = Py.Int h'
        ∧ h' ∈ h :: S ∧ ∀ x, x ∈ h :: S → x ≤ h'.
Proof.
  induction S as [|y S IH]; intros h; cbn [foldl Py.max].
  - exists h. split_and!; [done | left |].
    intros x ->%list_elem_of_singleton. lia.
  - destruct (IH (Z.max h y)) as (h' & -> & Hin & Hle).
    exists h'. split_and!; [done | |].
    + apply elem_of_cons in Hin as [->|?]; [|by do 2 right].
      destruct (Z.max_spec h y) as [[_ ->]|[_ ->]]; [right; left | left].
    + intros x Hx. assert (Z.max h y ≤ h') by (apply Hle; left).
      apply elem_of_cons in Hx as [->|Hx]; [lia|].
      apply elem_of_cons in Hx as [->|Hx]; [lia|]. apply Hle. by right.
Qed.

Lemma foldl_min_Int S : ∀ l,
  ∃ l', foldl Py.min (Py.Int l) S = Py.Int l'
        ∧ l' ∈ l :: S ∧ ∀ x, x ∈ l :: S → l' ≤ x.
Proof.
  induction S as [|y S IH]; intros l; cbn [foldl Py.min].
  - exists l. split_and!; [done | left |].
    intros x ->%list_elem_of_singleton. lia.
  - destruct (IH (Z.min l y)) as (l' & -> & Hin & Hle).
    exists l'. split_and!; [done | |].
    + apply elem_of_cons in Hin as [->|?]; [|by do 2 right].
      destruct (Z.min_spec l y) as [[_ ->]|[_ ->]]; [left | right; left].
    + intros x Hx. assert (l' ≤ Z.min l y) by (apply Hle; left).
      apply elem_of_cons in Hx as [->|Hx]; [lia|].
      apply elem_of_cons in Hx as [->|Hx]; [lia|]. apply Hle. by right.
Qed.

(** The final comparison of the extreme sizes is the spread of at most
    one between any two groups. *)
Lemma diff_gt_1_spread (S : list Z) :
  Py.diff_gt_1 (foldl Py.max Py.NegInf S) (foldl Py.min Py.PosInf S) = false
  ↔ ∀ a b, a ∈ S → b ∈ S → a - b ≤ 1.
Proof.
  destruct S as [|x S]; cbn [foldl Py.max Py.min].
  - cbn. split; [|done]. intros _ a b ?%elem_of_nil. done.
  - destruct (foldl_max_Int S x) as (h & -> & Hh & Hhmax).
    destruct (foldl_min_Int S x) as (l & -> & Hl & Hlmin).
    cbn. rewrite bool_decide_eq_false. split.
    + intros Hd a b Ha Hb. specialize (Hhmax a Ha). specialize (Hlmin b Hb). lia.
    + intros H. specialize (H h l Hh Hl). lia.
Qed.

Lemma elem_of_sizes_of st gids a :
  a ∈ sizes_of st gids ↔ ∃ g, g ∈ gids ∧ a = group_size (group_of st g).
Proof.
  unfold sizes_of. rewrite list_elem_of_fmap.
  split; [intros (g & -> & ?) | intros (g & ? & ->)]; eauto.
Qed.

(** The validator returns True exactly on the accepted states. *)
Lemma check_true_iff (st : State) : check st = Some true ↔ accepted st.
Proof.
  unfold check.
  destruct (check_groups _ _ _ _ _) as [|b|[[total lo] hi]] eqn:Hg.
  - split; [done|]. intros [H1 H2 H3 H4 H5].
    assert (∃ r, check_groups st (group_ids (M st)) 0 Py.PosInf Py.NegInf
                 = Py.Continue r) as [r Hr]; [|congruence].
    eexists. apply check_groups_continue. split; [done|].
    intros g Hin. split_and!; try apply H1; auto.
  - assert (b = false) as ->.
    { clear -Hg. revert Hg. generalize 0 Py.PosInf Py.NegInf.
      induction (group_ids (M st)) as [|g gids IH]; intros total lo hi; [done|].
      cbn [check_groups]. repeat case_bool_decide; try congruence.
      destruct (check_people _ _ _ _) as [|b'|[t' e]] eqn:Hp; try done.
      - intros [= <-]. revert Hp. clear. generalize 0 at 1. generalize total.
        induction (assigned_groups st !!! g) as [|p l IHl]; intros t0 e0; [done|].
        cbn [check_people]. destruct (groups st !! g); [|done].
        case_bool_decide; [congruence|]. apply IHl.
      - case_bool_decide; [congruence|]. apply IH. }
    split; [done|]. intros [H1 H2 H3 H4 H5].
    assert (∃ r, check_groups st (group_ids (M st)) 0 Py.PosInf Py.NegInf
                 = Py.Continue r) as [r Hr]; [|congruence].
    eexists. apply check_groups_continue. split; [done|].
    intros g Hin. split_and!; try apply H1; auto.
  - apply check_groups_continue in Hg as [[= -> -> ->] Hall].
    case_bool_decide as Htot.
    { split; [done|]. intros [_ _ _ _ H5]. unfold total_placed, occupancy in H5. lia. }
    destruct (Py.diff_gt_1 _ _) eqn:Hd.
    + split; [done|]. intros [_ H2 _ _ _].
      assert (Py.diff_gt_1 (foldl Py.max Py.NegInf (sizes_of st (group_ids (M st))))
                (foldl Py.min Py.PosInf (sizes_of st (group_ids (M st)))) = false)
        as Hf; [|congruence].
      apply diff_gt_1_spread. intros a b (g & ? & ->)%elem_of_sizes_of
        (g' & ? & ->)%elem_of_sizes_of. by apply H2.
    + split; [|done]. intros _.
      pose proof (proj1 (diff_gt_1_spread _) Hd) as Hs. split.
      * intros g Hin. apply Hall, Hin.
      * intros g g' Hin Hin'. apply Hs; apply elem_of_sizes_of; eauto.
      * intros g Hin. apply Hall, Hin.
      * intros g p Hin. apply Hall, Hin.
      * unfold total_placed, occupancy. lia.
Qed.

(** C1, as amended: [check] returns True exactly when every group's size
    is within the lower and upper limits, no two groups differ in size by
    more than one, every group holds at least one external, nobody's
    province is in the exclusion list of their group, and the groups hold
    M+N people in all.  The external ceiling is not among the conditions. *)
Theorem check_accepts_iff (st : State) : check st = Some true ↔ accepted st.
Proof. apply check_true_iff. Qed.

(** A table that [check] accepts although group 0 holds three externals,
    one more than the external ceiling. *)
Lemma check_over_quota :
  limits <$> init Sample.parsed = Some (limits Sample.over_quota)
  ∧ group_external_upper_limit Sample.over_quota = 2
  ∧ external_count (group_of Sample.over_quota 0) = 3
  ∧ check Sample.over_quota = Some true
  ∧ ¬ specified_invariant Sample.over_quota.
Proof.
  split_and!; [by vm_compute | done | by vm_compute | by vm_compute |].
  intros [_ H].
  assert (0%nat ∈ group_ids (M Sample.over_quota)) as Hin by (vm_compute; left).
  specialize (H 0%nat Hin). vm_compute in H. by apply H.
Qed.

(** C10: on a table that meets the size, spread, province, external and
    total constraints, [check] returns True whoever the leaders and
    members are said to be: the lists of leaders and members play no part
    in the verdict. *)
Theorem check_ignores_leaders (st : State) (leaders members : list Person) :
  accepted st → check (with_roster st leaders members) = Some true.
Proof.
  intros [H1 H2 H3 H4 H5]. apply check_true_iff. by split.
Qed.

Lemma check_ignores_leaders_witness :
  accepted Sample.member_first
  ∧ head (group_of Sample.member_first 0) = Some Sample.K
  ∧ (Sample.K ∉ group_leaders Sample.member_first)
  ∧ check (with_roster Sample.member_first [] [Sample.K; Sample.L]) = Some true.
Proof.
  assert (accepted Sample.member_first) as Hacc.
  { apply check_true_iff. vm_compute. reflexivity. }
  split_and!; [exact Hacc | reflexivity | | apply (check_ignores_leaders _ _ _ Hacc)].
  intros ?%list_elem_of_singleton. discriminate.
Defined.
End Validator.

(** ** The backtracking engine *)

Section Table.

Global Instance table_equiv_equivalence : Equivalence table_equiv.
Proof.
  split.
  - intros t g. reflexivity.
  - intros t1 t2 H g. symmetry. apply H.
  - intros t1 t2 t3 H1 H2 g. rewrite H1. apply H2.
Qed.

Lemma table_append_total (t : Table) g person g' :
  table_append t g person !!! g'
  = if decide (g = g') then t !!! g ++ [person] else t !!! g'.
Proof. unfold table_append. apply lookup_total_insert. Qed.

Lemma table_append_proper (t1 t2 : Table) g person :
  table_equiv t1 t2 →
  table_equiv (table_append t1 g person) (table_append t2 g person).
Proof.
  intros H g'. rewrite !table_append_total. case_decide; [by rewrite H | apply H].
Qed.

(** Popping what was appended gives back the table, group by group. *)
Lemma table_pop_undo (t1 t : Table) g person :
  table_equiv t1 (table_append t g person) →
  ∃ t2, table_pop t1 g = Some t2 ∧ table_equiv t2 t.
Proof.
  intros H. unfold table_pop.
  pose proof (H g) as Hg. rewrite table_append_total in Hg.
  rewrite decide_True in Hg by done.
  destruct (t1 !!! g) as [|x l] eqn:E.
  { by destruct (t !!! g). }
  eexists. split; [done|]. intros g'.
  rewrite lookup_total_insert. case_decide as Hd.
  - subst g'. rewrite Hg. apply removelast_last.
  - rewrite (H g'), table_append_total. by rewrite decide_False.
Qed.

End Table.

Section Engine.

Context (m : Z) (can : Admissible).

Lemma assign_backtrace_unfold people index t :
  assign_backtrace m can people index t =
    if bool_decide (index = length people) then Some (true, t)
    else match people !! index with
         | None => None
         | Some person =>
             for_groups can (assign_backtrace m can people (S index))
               person (group_ids m) t
         end.
Proof.
  unfold assign_backtrace at 1. cbn [assign_backtrace_fuel].
  case_bool_decide; [done|].
  destruct (people !! index) as [person|] eqn:E; [|done].
  apply lookup_lt_Some in E. unfold assign_backtrace.
  by replace (length people - index)%nat
    with (S (length people - S index)) by lia.
Qed.

(** *** Failure restores the table *)

Lemma for_groups_restores rec person gids :
  restores rec → restores (for_groups can rec person gids).
Proof.
  intros Hrec. induction gids as [|g gids IH]; intros t t'; cbn [for_groups].
  - by intros [= <-].
  - destruct (can person g t) as [[|]|]; [|apply IH|done].
    destruct (rec (table_append t g person)) as [[[|] t1]|] eqn:Hr; [done| |done].
    apply Hrec in Hr. apply table_pop_undo in Hr as (t2 & -> & Ht2).
    intros H%IH. by etrans.
Qed.

Lemma assign_backtrace_fuel_restores fuel people index :
  restores (assign_backtrace_fuel fuel m can people index).
Proof.
  revert index. induction fuel as [|fuel IH]; intros index t t'; [done|].
  cbn [assign_backtrace_fuel]. case_bool_decide; [done|].
  destruct (people !! index) as [person|]; [|done].
  apply for_groups_restores, IH.
Qed.

Lemma assign_backtrace_restores people index :
  restores (assign_backtrace m can people index).
Proof. apply assign_backtrace_fuel_restores. Qed.

(** *** The engine returns *)

Lemma for_groups_total rec person gids t :
  (∀ g t, g ∈ gids → is_Some (can person g t)) →
  (∀ t, is_Some (rec t)) → restores rec →
  is_Some (for_groups can rec person gids t).
Proof.
  intros Hcan Hrec Hres. revert t Hcan.
  induction gids as [|g gids IH]; intros t Hcan; cbn [for_groups]; [done|].
  assert (∀ g0 t0, g0 ∈ gids → is_Some (can person g0 t0)) as Hcan'
    by (intros; apply Hcan; by right).
  destruct (Hcan g t) as [[|] ->]; [left| |by apply IH].
  destruct (Hrec (table_append t g person)) as [[[|] t1] Hr]; rewrite Hr; [done|].
  apply Hres in Hr. apply table_pop_undo in Hr as (t2 & -> & _). by apply IH.
Qed.

Lemma assign_backtrace_fuel_total fuel people index t :
  total_predicate m can →
  (index ≤ length people)%nat → (length people - index < fuel)%nat →
  is_Some (assign_backtrace_fuel fuel m can people index t).
Proof.
  intros Hcan. revert index t.
  induction fuel as [|fuel IH]; intros index t Hle Hfuel; [lia|].
  cbn [assign_backtrace_fuel]. case_bool_decide; [done|].
  destruct (lookup_lt_is_Some_2 people index) as [person ->]; [lia|].
  apply for_groups_total.
  - intros; by apply Hcan.
  - intros t0. apply IH; lia.
  - apply assign_backtrace_fuel_restores.
Qed.

Lemma assign_backtrace_total people index t :
  total_predicate m can → (index ≤ length people)%nat →
  is_Some (assign_backtrace m can people index t).
Proof. intros. apply assign_backtrace_fuel_total; [done|done|lia]. Qed.

(** *** What the search finds *)

Context (Hext : extensional can).

Lemma place_all_equiv people : ∀ choice t1 t2,
  table_equiv t1 t2 →
  option_Forall2 table_equiv
    (place_all can people choice t1) (place_all can people choice t2).
Proof.
  induction people as [|person people IH]; intros [|g choice] t1 t2 H;
    cbn [place_all]; try by constructor.
  rewrite (Hext person g t1 t2 H).
  destruct (can person g t2) as [[|]|]; try by constructor.
  by apply IH, table_append_proper.
Qed.

Lemma place_all_equiv_Some people choice t1 t2 tr :
  table_equiv t1 t2 → place_all can people choice t1 = Some tr →
  ∃ tr', place_all can people choice t2 = Some tr' ∧ table_equiv tr tr'.
Proof.
  intros H E. pose proof (place_all_equiv people choice t1 t2 H) as HF.
  rewrite E in HF. inversion HF; subst. eauto.
Qed.

Lemma place_all_equiv_None people choice t1 t2 :
  table_equiv t1 t2 → place_all can people choice t1 = None →
  place_all can people choice t2 = None.
Proof.
  intros H E. pose proof (place_all_equiv people choice t1 t2 H) as HF.
  rewrite E in HF. by inversion HF.
Qed.

Lemma for_groups_search people rec person
    (Hrec : ∀ t ok t', rec t = Some (ok, t') →
                       search_result m can people t ok t') :
  ∀ n k t0 t ok t',
    (k + n = Z.to_nat m)%nat → table_equiv t0 t →
    (∀ g choice, (g < k)%nat → Forall (λ g, g ∈ group_ids m) choice →
                 place_all can (person :: people) (g :: choice) t = None) →
    for_groups can rec person (seq k n) t0 = Some (ok, t') →
    search_result m can (person :: people) t ok t'.
Proof.
  induction n as [|n IH]; intros k t0 t ok t' Hk Ht0 Hdone; cbn [seq for_groups].
  - intros [= <- <-]. split; [done|].
    intros [|g choice] HF; [done|]. apply Hdone; [|by inversion HF].
    inversion HF as [|? ? Hg _]; subst. apply elem_of_seq in Hg. lia.
  - rewrite (Hext person k t0 t Ht0).
    destruct (can person k t) as [[|]|] eqn:Hcan; [| |done].
    + destruct (rec (table_append t0 k person)) as [[[|] t1]|] eqn:Hr; [| |done].
      * intros [= <- <-]. apply Hrec in Hr as (choice & tr & HF & Hp & Htr & Hmin).
        apply (place_all_equiv_Some _ _ _ (table_append t k person)) in Hp
          as (tr' & Hp' & Htr'); [|by apply table_append_proper].
        exists (k :: choice), tr'. split_and!.
        -- constructor; [apply elem_of_seq; lia | done].
        -- cbn [place_all]. by rewrite Hcan.
        -- by etrans.
        -- intros [|g' choice'] [HF' [x Hx]]; [done|].
           inversion HF' as [|? ? Hg' HF'']; subst.
           destruct (decide (g' < k)%nat) as [Hlt|Hge].
           { rewrite Hdone in Hx; done. }
           destruct (decide (g' = k)) as [->|Hne]; [|left; lia].
           right. split; [done|]. apply Hmin. split; [done|].
           cbn [place_all] in Hx. rewrite Hcan in Hx.
           apply (place_all_equiv_Some _ _ _ (table_append t0 k person)) in Hx
             as (? & -> & _); [done|].
           symmetry. by apply table_append_proper.
      * apply Hrec in Hr as [Ht1 Hnone].
        apply table_pop_undo in Ht1 as (t2 & -> & Ht2).
        apply IH; [lia | by etrans |].
        intros g choice Hg HF. destruct (decide (g = k)) as [->|]; [|apply Hdone; [lia|done]].
        cbn [place_all]. rewrite Hcan.
        eapply place_all_equiv_None; [|by apply Hnone].
        by apply table_append_proper.
    + apply IH; [lia | done |].
      intros g choice Hg HF. destruct (decide (g = k)) as [->|]; [|apply Hdone; [lia|done]].
      cbn [place_all]. by rewrite Hcan.
Qed.

Lemma assign_backtrace_fuel_search people fuel : ∀ index t ok t',
  assign_backtrace_fuel fuel m can people index t = Some (ok, t') →
  search_result m can (drop index people) t ok t'.
Proof.
  induction fuel as [|fuel IH]; intros index t ok t'; [done|].
  cbn [assign_backtrace_fuel]. case_bool_decide as Hi.
  - intros [= <- <-]. subst index. rewrite drop_all.
    exists [], t. split_and!; done.
  - destruct (people !! index) as [person|] eqn:E; [|done].
    rewrite (drop_S _ _ _ E). intros H.
    eapply (for_groups_search _ _ _ (IH (S index)) (Z.to_nat m) 0%nat t t);
      [lia | done | intros; lia | exact H].
Qed.

Lemma assign_backtrace_search people index t ok t' :
  assign_backtrace m can people index t = Some (ok, t') →
  search_result m can (drop index people) t ok t'.
Proof. apply assign_backtrace_fuel_search. Qed.

End Engine.

(** ** More on the predicates *)

Section Predicates.

Lemma touch_limit_equiv measure limit m (t1 t2 : Table) g :
  table_equiv t1 t2 →
  touch_limit measure limit m t1 g = touch_limit measure limit m t2 g.
Proof.
  intros H. unfold touch_limit. generalize (false, 0).
  induction (group_ids m) as [|g' gids IH]; intros acc; [done|].
  cbn [foldl]. rewrite IH. f_equal. unfold touch_step. by rewrite (H g').
Qed.

Lemma leaders_extensional st : extensional (leaders_can_assign_func st).
Proof.
  intros person g t1 t2 H. unfold leaders_can_assign_func. by rewrite (H g).
Qed.

Lemma externals_extensional st : extensional (externals_can_assign_func st).
Proof.
  intros person g t1 t2 H.
  unfold externals_can_assign_func, externals_get_group_touch_limit,
    get_group_external_num.
  by rewrite (H g), (touch_limit_equiv _ _ _ t1 t2 g H).
Qed.

Lemma members_extensional st : extensional (members_can_assign_func st).
Proof.
  intros person g t1 t2 H.
  unfold members_can_assign_func, members_get_group_touch_limit.
  by rewrite (H g), (touch_limit_equiv _ _ _ t1 t2 g H).
Qed.

(** With an exclusion list for every group no predicate raises. *)
Lemma province_conflict_total st person g :
  length (groups st) = Z.to_nat (M st) → g ∈ group_ids (M st) →
  is_Some (province_conflict st person g).
Proof.
  intros Hlen Hg. apply elem_of_seq in Hg. unfold province_conflict.
  destruct (lookup_lt_is_Some_2 (groups st) g) as [excl ->]; [lia|]. by eexists.
Qed.

Lemma leaders_total st :
  length (groups st) = Z.to_nat (M st) →
  total_predicate (M st) (leaders_can_assign_func st).
Proof.
  intros Hlen person g t Hg. unfold leaders_can_assign_func.
  destruct (province_conflict_total st person g Hlen Hg) as [c ->]. cbn.
  repeat case_match; done.
Qed.

Lemma externals_total st :
  length (groups st) = Z.to_nat (M st) →
  total_predicate (M st) (externals_can_assign_func st).
Proof.
  intros Hlen person g t Hg. unfold externals_can_assign_func.
  destruct (province_conflict_total st person g Hlen Hg) as [c ->]. cbn.
  repeat case_match; done.
Qed.

Lemma members_total st :
  length (groups st) = Z.to_nat (M st) →
  total_predicate (M st) (members_can_assign_func st).
Proof.
  intros Hlen person g t Hg. unfold members_can_assign_func.
  destruct (province_conflict_total st person g Hlen Hg) as [c ->]. cbn.
  repeat case_match; done.
Qed.

Lemma leaders_accepts st t person g :
  leaders_can_assign_func st person g t = Some true
  ↔ (∃ excl, groups st !! g = Some excl ∧ province person ∉ excl)
    ∧ t !!! g = [].
Proof.
  unfold leaders_can_assign_func, province_conflict, group_size.
  destruct (groups st !! g) as [excl|]; cbn.
  2: { split; [done | intros [(? & ? & _) _]; done]. }
  destruct (t !!! g) as [|p l]; cbn [length];
    repeat case_bool_decide; split; try done; try lia.
  - intros [(? & [= <-] & ?) _]. done.
  - intros _. eauto.
  - intros [_ ?]. done.
  - intros [_ ?]. done.
Qed.

End Predicates.

Section Counting.

Lemma people_in_equiv (t1 t2 : Table) gids :
  table_equiv t1 t2 → people_in t1 gids = people_in t2 gids.
Proof.
  intros H. unfold people_in. f_equal. apply list_fmap_ext.
  intros _ g _. by rewrite (H g).
Qed.

Lemma people_in_append (t : Table) g person gids :
  NoDup gids →
  people_in (table_append t g person) gids
  = (people_in t gids + (if decide (g ∈ gids) then 1 else 0))%nat.
Proof.
  induction 1 as [|g' gids Hnin Hnd IH]; [done|].
  change (people_in ?t' (g' :: gids))
    with (length (t' !!! g') + people_in t' gids)%nat.
  rewrite IH, table_append_total.
  destruct (decide (g = g')) as [->|Hne].
  - rewrite (decide_True (P := g' ∈ g' :: gids)) by left.
    rewrite (decide_False (P := g' ∈ gids)) by done.
    rewrite length_app. cbn. lia.
  - destruct (decide (g ∈ gids)) as [Hin|Hnin'].
    + rewrite (decide_True (P := g ∈ g' :: gids)) by (by right). lia.
    + rewrite (decide_False (P := g ∈ g' :: gids)); [lia|].
      intros [->|?]%elem_of_cons; done.
Qed.

Lemma occupancy_append m (t : Table) g person :
  g ∈ group_ids m →
  occupancy m (table_append t g person) = S (occupancy m t).
Proof.
  intros Hg. unfold occupancy. rewrite people_in_append by apply NoDup_seq.
  rewrite decide_True by done. lia.
Qed.

Lemma people_in_le (t : Table) gids :
  (∀ g, g ∈ gids → (length (t !!! g) ≤ 1)%nat) →
  (people_in t gids ≤ length gids)%nat.
Proof.
  induction gids as [|g gids IH]; intros H; [done|].
  change (people_in t (g :: gids))
    with (length (t !!! g) + people_in t gids)%nat.
  cbn [length]. specialize (H g (list_elem_of_here _ _)) as Hg.
  assert (people_in t gids ≤ length gids)%nat; [|lia].
  apply IH. intros; apply H. by right.
Qed.

(** As many people as groups, at most one in each: one in each. *)
Lemma people_in_full (t : Table) gids :
  (∀ g, g ∈ gids → (length (t !!! g) ≤ 1)%nat) →
  people_in t gids = length gids →
  ∀ g, g ∈ gids → length (t !!! g) = 1%nat.
Proof.
  induction gids as [|g gids IH]; intros H Hsum g' Hg'; [by apply elem_of_nil in Hg'|].
  change (people_in t (g :: gids))
    with (length (t !!! g) + people_in t gids)%nat in Hsum.
  cbn [length] in Hsum.
  pose proof (H g (list_elem_of_here _ _)) as Hg.
  assert (people_in t gids ≤ length gids)%nat as Hle.
  { apply people_in_le. intros; apply H. by right. }
  apply elem_of_cons in Hg' as [->|Hin]; [lia|].
  apply IH; [intros; apply H; by right | lia | done].
Qed.

End Counting.

Section Leaders.

Context (st : State).

Lemma leaders_placed_step placed t person g :
  g ∈ group_ids (M st) →
  leaders_can_assign_func st person g t = Some true →
  leaders_placed st placed t →
  leaders_placed st (placed ++ [person]) (table_append t g person).
Proof.
  intros Hg [(excl & Hexcl & Hprov) Hempty]%leaders_accepts (Hone & Hmem & Hocc).
  split_and!.
  - intros g'. rewrite table_append_total. case_decide; [|apply Hone].
    rewrite Hempty. cbn. lia.
  - intros g' p. rewrite table_append_total. case_decide as Hd.
    + subst g'. rewrite Hempty. intros ->%list_elem_of_singleton.
      split; [apply elem_of_app; right; left | eauto].
    + intros Hin. destruct (Hmem g' p Hin) as [? ?].
      split; [apply elem_of_app; by left | done].
  - rewrite occupancy_append by done. rewrite length_app. cbn. lia.
Qed.

Lemma place_all_leaders people : ∀ choice t tr placed,
  Forall (λ g, g ∈ group_ids (M st)) choice →
  place_all (leaders_can_assign_func st) people choice t = Some tr →
  leaders_placed st placed t →
  leaders_placed st (placed ++ people) tr.
Proof.
  induction people as [|person people IH]; intros [|g choice] t tr placed HF;
    cbn [place_all]; try done.
  - intros [= <-]. by rewrite app_nil_r.
  - inversion HF; subst.
    destruct (leaders_can_assign_func st person g t) as [[|]|] eqn:Hcan; try done.
    intros Hp Hinv. rewrite (assoc_L app placed [person] people : placed ++ person :: people = (placed ++ [person]) ++ people).
    eapply IH; [done | exact Hp | by apply leaders_placed_step].
Qed.

Lemma leaders_placed_equiv placed t1 t2 :
  table_equiv t1 t2 → leaders_placed st placed t1 → leaders_placed st placed t2.
Proof.
  intros H (H1 & H2 & H3). split_and!.
  - intros g. rewrite <- (H g). apply H1.
  - intros g p. rewrite <- (H g). apply H2.
  - unfold occupancy in *. by rewrite <- (people_in_equiv t1 t2).
Qed.

Lemma people_in_empty (t : Table) gids :
  (∀ g, t !!! g = []) → people_in t gids = 0%nat.
Proof.
  intros H. induction gids as [|g gids IH]; [done|].
  change (people_in t (g :: gids))
    with (length (t !!! g) + people_in t gids)%nat.
  by rewrite IH, H.
Qed.

(** A successful first phase on an empty table with as many leaders as
    groups leaves one leader in every group. *)
Lemma assign_leaders_one_each st' :
  (∀ g, assigned_groups st !!! g = []) →
  length (group_leaders st) = Z.to_nat (M st) →
  assign_leaders st = Some (true, st') →
  ∀ g, g ∈ group_ids (M st) →
    ∃ leader excl,
      group_of st' g = [leader] ∧ leader ∈ group_leaders st
      ∧ groups st !! g = Some excl ∧ province leader ∉ excl.
Proof.
  intros Hempty Hlen. unfold assign_leaders, run_phase.
  destruct (assign_backtrace _ _ _ _ _) as [[ok t']|] eqn:Hrun; [|done].
  intros [= -> <-] g Hg.
  apply assign_backtrace_search in Hrun as (choice & tr & HF & Hp & Htr & _);
    [|apply leaders_extensional].
  rewrite drop_0 in Hp.
  assert (leaders_placed st [] (assigned_groups st)) as Hinit.
  { split_and!.
    - intros g'. rewrite Hempty. cbn. lia.
    - intros g' p. rewrite Hempty. by intros ?%elem_of_nil.
    - unfold occupancy. by rewrite people_in_empty. }
  pose proof (place_all_leaders _ _ _ _ _ HF Hp Hinit) as Hfin.
  apply (leaders_placed_equiv _ _ _ Htr) in Hfin as (Hone & Hmem & Hocc).
  rewrite app_nil_l in *.
  assert (length (t' !!! g) = 1%nat) as Hlen1.
  { apply (people_in_full t' (group_ids (M st))); [auto | | done].
    unfold occupancy in Hocc. rewrite Hocc, Hlen. unfold group_ids.
    by rewrite length_seq. }
  unfold group_of. cbn [assigned_groups set_assigned_groups].
  destruct (t' !!! g) as [|leader [|]] eqn:E; try done.
  destruct (Hmem g leader) as (Hin & excl & Hexcl & Hprov); [rewrite E; left|].
  eauto 10.
Qed.

End Leaders.

(** ** Parsing *)

Section Parsing.

Context {rt : Runtime}.

Lemma external_count_app l1 l2 :
  external_count (l1 ++ l2) = external_count l1 + external_count l2.
Proof. unfold external_count. rewrite filter_app, length_app. lia. Qed.

Lemma external_count_nonneg l : 0 ≤ external_count l.
Proof. unfold external_count. lia. Qed.

Lemma read_people_spec lines : ∀ indices people e people' e',
  read_people lines indices people e = Some (people', e') →
  ∃ new, people' = people ++ new
         ∧ length new = length indices
         ∧ e' = e + external_count new.
Proof.
  induction indices as [|i indices IH]; intros people e people' e';
    cbn [read_people].
  - intros [= <- <-]. exists []. rewrite app_nil_r.
    split_and!; [done | done | unfold external_count; cbn; lia].
  - destruct (Py.getitem lines i) as [line|]; [|done]. cbn.
    destruct (get_person_info line) as [person|]; [|done]. cbn.
    intros (new & -> & Hlen & ->)%IH. exists (person :: new).
    rewrite <- (assoc_L app), external_count_cons. cbn [app length].
    split_and!; [done | by rewrite Hlen |].
    destruct (is_external person); lia.
Qed.

Lemma length_range a b : length (Py.range a b) = Z.to_nat (b - a).
Proof. unfold Py.range. by rewrite length_fmap, length_seq. Qed.

(** The state [parse_input] leaves: an empty table, as many leaders and
    exclusion lists as groups, and the count of the externals read. *)
Lemma parse_input_post st text st0 :
  parse_input st text = Some st0 →
  assigned_groups st0 = ∅
  ∧ 0 ≤ M st0
  ∧ length (group_leaders st0) = Z.to_nat (M st0)
  ∧ length (groups st0) = Z.to_nat (M st0)
  ∧ external_num st0
    = external_count (group_leaders st0) + external_count (group_members st0).
Proof.
  unfold parse_input.
  destruct (_ !! 0%nat ≫= str_int) as [m|]; [|done]. cbn.
  destruct (_ !! 1%nat ≫= str_int) as [n|]; [|done]. cbn.
  destruct (read_people _ (Py.range 0 m) _ _) as [[leaders e1]|] eqn:Hl; [|done].
  cbn.
  destruct (read_people _ (Py.range m (m + n)) _ _) as [[members e2]|] eqn:Hm;
    [|done]. cbn.
  case_bool_decide; [done|]. case_bool_decide as Hlen; [done|].
  intros [= <-]. cbn.
  apply read_people_spec in Hl as (newl & -> & Hll & ->).
  apply read_people_spec in Hm as (newm & -> & _ & ->).
  rewrite !app_nil_l, length_range in *.
  split_and!; [done | lia | | lia | lia].
  rewrite Hll. f_equal. lia.
Qed.

Lemma external_count_le l : external_count l ≤ Z.of_nat (length l).
Proof. unfold external_count. pose proof (length_filter (λ p, is_external p) l). lia. Qed.

Lemma length_slice_le {A} (l : list A) a b :
  (length (Py.slice l a b) ≤ length l)%nat.
Proof. unfold Py.slice. rewrite length_take, length_drop. lia. Qed.

Lemma slice_nonempty {A} (l : list A) a b :
  (1 ≤ length (Py.slice l a b))%nat → 1 - Z.of_nat (length l) ≤ b.
Proof.
  unfold Py.slice, Py.slice_bound. rewrite length_take, length_drop.
  repeat case_bool_decide; lia.
Qed.

(** The head counts of a parsed text are bounded by its number of lines. *)
Lemma parse_input_bounds st text st0 :
  parse_input st text = Some st0 →
  0 ≤ M st0 < 2 ^ 52
  ∧ M st0 + N st0 < 2 ^ 52
  ∧ (1 ≤ M st0 → - 2 ^ 53 < M st0 + N st0)
  ∧ 0 ≤ external_num st0 < 2 ^ 52.
Proof.
  unfold parse_input.
  pose proof (str_splitlines_bound text) as Hbound.
  set (lines := filter _ (str_strip <$> str_splitlines text)).
  assert (Z.of_nat (length (drop 2 lines)) < 2 ^ 52) as Hlines.
  { rewrite length_drop. pose proof (length_filter (λ line, line ≠ EmptyString)
      (str_strip <$> str_splitlines text)) as Hf.
    rewrite length_fmap in Hf. fold lines in Hf. lia. }
  destruct (_ !! 0%nat ≫= str_int) as [m|]; [|done]. cbn.
  destruct (_ !! 1%nat ≫= str_int) as [n|]; [|done]. cbn.
  destruct (read_people _ (Py.range 0 m) _ _) as [[leaders e1]|] eqn:Hl; [|done].
  cbn.
  destruct (read_people _ (Py.range m (m + n)) _ _) as [[members e2]|] eqn:Hm;
    [|done]. cbn.
  case_bool_decide as Hend; [done|]. case_bool_decide as Hlen; [done|].
  intros [= <-]. cbn.
  apply read_people_spec in Hl as (newl & -> & Hll & ->).
  apply read_people_spec in Hm as (newm & -> & Hlm & ->).
  rewrite length_range in Hll, Hlm. rewrite length_fmap in Hlen.
  pose proof (length_slice_le (drop 2 lines) (m + n) (m + n + m)) as Hs1.
  pose proof (slice_nonempty (drop 2 lines) (m + n) (m + n + m)) as Hs2.
  pose proof (external_count_le newl). pose proof (external_count_le newm).
  pose proof (external_count_nonneg newl).
  pose proof (external_count_nonneg newm).
  assert (2 ^ 53 = 2 * 2 ^ 52) as E53 by done.
  split_and!; try lia.
Qed.

End Parsing.

(** ** Phases and output *)

Section Phases.

Lemma run_phase_inv st can people ok st' :
  run_phase st can people = Some (ok, st') →
  ∃ t', assign_backtrace (M st) can people 0 (assigned_groups st) = Some (ok, t')
        ∧ st' = set_assigned_groups st t'.
Proof.
  unfold run_phase. destruct (assign_backtrace _ _ _ _ _) as [[ok' t']|]; [|done].
  intros [= <- <-]. eauto.
Qed.

Lemma run_phase_total st can people :
  total_predicate (M st) can → is_Some (run_phase st can people).
Proof.
  intros Hcan. unfold run_phase.
  destruct (assign_backtrace_total (M st) can people 0 (assigned_groups st))
    as [[ok t'] ->]; [done | lia | by eexists].
Qed.

Lemma run_phase_failed st can people st' :
  run_phase st can people = Some (false, st') →
  table_equiv (assigned_groups st') (assigned_groups st).
Proof.
  intros (t' & Hrun & ->)%run_phase_inv. cbn.
  by apply assign_backtrace_restores in Hrun.
Qed.

Lemma place_all_Forall (P : Person → Prop) can people : ∀ choice t tr,
  place_all can people choice t = Some tr →
  Forall P people → (∀ g, Forall P (t !!! g)) → ∀ g, Forall P (tr !!! g).
Proof.
  induction people as [|person people IH]; intros [|g choice] t tr;
    cbn [place_all]; try done.
  - by intros [= <-].
  - destruct (can person g t) as [[|]|]; try done.
    intros Hp HP Ht. inversion HP; subst. eapply IH; [exact Hp | done |].
    intros g'. rewrite table_append_total. case_decide; [|done].
    apply Forall_app. split; [done | by constructor].
Qed.

(** A phase puts into the table only people of its list. *)
Lemma run_phase_Forall (P : Person → Prop) st can people ok st' :
  extensional can →
  run_phase st can people = Some (ok, st') →
  Forall P people → (∀ g, Forall P (assigned_groups st !!! g)) →
  ∀ g, Forall P (assigned_groups st' !!! g).
Proof.
  intros Hext (t' & Hrun & ->)%run_phase_inv HP Ht g. cbn.
  apply assign_backtrace_search in Hrun; [|done]. rewrite drop_0 in Hrun.
  destruct ok; cbn in Hrun.
  - destruct Hrun as (choice & tr & _ & Hp & Htr & _).
    rewrite <- (Htr g). by eapply place_all_Forall.
  - destruct Hrun as [Heq _]. by rewrite (Heq g).
Qed.

End Phases.

Section Output.

Lemma check_people_no_raise provinces group total ext :
  check_people (Some provinces) group total ext ≠ Py.Raise.
Proof.
  revert total ext. induction group as [|p l IH]; intros total ext; [done|].
  cbn [check_people]. case_bool_decide; [done | apply IH].
Qed.

Lemma check_groups_no_raise st gids : ∀ total lo hi,
  (∀ g, g ∈ gids → is_Some (groups st !! g)) →
  check_groups st gids total lo hi ≠ Py.Raise.
Proof.
  induction gids as [|g gids IH]; intros total lo hi Hg; [done|].
  cbn [check_groups]. repeat (case_bool_decide; [done|]).
  destruct (Hg g) as [provinces ->]; [left|].
  destruct (check_people _ _ _ _) as [|b|[total' ext]] eqn:Hp; [|done|].
  - by apply check_people_no_raise in Hp.
  - case_bool_decide; [done|]. apply IH. intros; apply Hg. by right.
Qed.

(** With an exclusion list for every group the validator returns. *)
Lemma check_total st :
  length (groups st) = Z.to_nat (M st) → is_Some (check st).
Proof.
  intros Hlen. unfold check.
  destruct (check_groups _ _ _ _ _) as [|b|[[total lo] hi]] eqn:Hg.
  - apply check_groups_no_raise in Hg; [done|].
    intros g Hin%elem_of_seq. apply lookup_lt_is_Some_2. lia.
  - by eexists.
  - repeat case_match; by eexists.
Qed.

Lemma external_count_pos_nonempty group :
  1 ≤ external_count group → group ≠ [].
Proof. intros H ->. unfold external_count in H. cbn in H. lia. Qed.

Lemma format_output_total st :
  (∀ g, g ∈ group_ids (M st) → group_of st g ≠ []) →
  is_Some (format_output st).
Proof.
  intros Hne. unfold format_output.
  destruct (mapM_is_Some_2
              (λ i, format_group i (assigned_groups st !!! i))
              (group_ids (M st))) as [output ->]; [|by eexists].
  apply Forall_forall. intros g Hg. cbn. specialize (Hne g Hg).
  unfold group_of in Hne. unfold format_group.
  destruct (assigned_groups st !!! g); [done | by eexists].
Qed.

(** The formatted table of one group or more starts with the ordinal
    prefix of its first line. *)
Lemma format_output_prefix st res :
  1 ≤ M st → format_output st = Some res → ∃ rest, res = "第" +:+ rest.
Proof.
  intros HM. unfold format_output, group_ids.
  destruct (Z.to_nat (M st)) as [|k] eqn:E; [lia|].
  cbn [seq mapM]. unfold format_group at 1. 
  destruct (assigned_groups st !!! 0%nat) as [|leader members]; [done|].
  cbn. destruct (mapM _ _) as [output|]; [|done]. cbn.
  intros [= <-]. destruct output; eauto.
Qed.

Lemma failure_messages_NoDup : NoDup failure_messages.
Proof.
  apply (bool_decide_unpack (NoDup failure_messages)). vm_compute. exact I.
Qed.

Lemma prefix_not_failure rest : "第" +:+ rest ∉ failure_messages.
Proof.
  unfold failure_messages. rewrite !elem_of_cons, elem_of_nil.
  intros [H|[H|[H|[H|[]]]]]; discriminate H.
Qed.

End Output.

(** ** The pipeline *)

Section Run.

Context {rt : Runtime}.

Lemma phase_groups st can people ok st' :
  run_phase st can people = Some (ok, st') →
  groups st' = groups st ∧ M st' = M st.
Proof. by intros (t' & _ & ->)%run_phase_inv. Qed.

Lemma accepted_nonempty st g :
  accepted st → g ∈ group_ids (M st) → group_of st g ≠ [].
Proof.
  intros Hacc Hg. apply external_count_pos_nonempty.
  by apply (accepted_external st Hacc).
Qed.

(** Every run of the phases on a state with one exclusion list per
    group ends in one of the five outcomes. *)
Lemma run_phases_outcome st1 :
  length (groups st1) = Z.to_nat (M st1) →
  ∃ out st', run_phases st1 = Some (out, st') ∧ outcome st1 out st'.
Proof.
  intros Hlen. unfold run_phases.
  destruct (run_phase_total st1 (leaders_can_assign_func st1) (group_leaders st1))
    as [[ok s2] Hl]; [by apply leaders_total|].
  fold (assign_leaders st1) in Hl. rewrite Hl.
  destruct ok; [|eexists _, _; split; [done | by constructor]].
  destruct (phase_groups _ _ _ _ _ Hl) as [Hg2 Hm2].
  destruct (run_phase_total s2 (externals_can_assign_func s2)
              (group_members_external s2)) as [[ok s3] He].
  { apply externals_total. by rewrite Hg2, Hm2. }
  fold (assign_externals s2) in He. rewrite He.
  destruct ok; [|eexists _, _; split; [done | by econstructor]].
  destruct (phase_groups _ _ _ _ _ He) as [Hg3 Hm3].
  destruct (run_phase_total s3 (members_can_assign_func s3)
              (group_members_no_external s3)) as [[ok s4] Hm].
  { apply members_total. by rewrite Hg3, Hm3, Hg2, Hm2. }
  fold (assign_members s3) in Hm. rewrite Hm.
  destruct ok; [|eexists _, _; split; [done | by econstructor]].
  destruct (phase_groups _ _ _ _ _ Hm) as [Hg4 Hm4].
  destruct (check_total s4) as [b Hc].
  { by rewrite Hg4, Hm4, Hg3, Hm3, Hg2, Hm2. }
  rewrite Hc.
  destruct b; [|eexists _, _; split; [done | by econstructor]].
  destruct (format_output_total s4) as [res Hres].
  { intros g Hg. apply accepted_nonempty; [by apply check_true_iff | done]. }
  rewrite Hres. eexists _, _; split; [done | by econstructor].
Qed.

Lemma run_inv st seed text st0 :
  parse_input st text = Some st0 →
  run st seed text = init (shuffle seed st0) ≫= run_phases.
Proof. intros H. unfold run. by rewrite H. Qed.

(** The head counts of a parsed text are within the float range: with a
    group count of at least one, [init] returns. *)
Lemma init_after_parse st seed text st0 :
  parse_input st text = Some st0 → 1 ≤ M st0 →
  is_Some (init (shuffle seed st0)).
Proof.
  intros Hparse HM.
  destruct (parse_input_bounds _ _ _ Hparse) as (HM' & HT & HT' & HE).
  specialize (HT' HM).
  assert (2 ^ 53 < 2 ^ 1023) as Hpow by (apply Z.pow_lt_mono_r; lia).
  assert (2 ^ 53 = 2 * 2 ^ 52) as E53 by done.
  destruct (ceil_div_returns (M st0 + N st0) (M st0)) as [upper Hu]; [lia | lia|].
  destruct (ceil_div_returns (external_num st0) (M st0)) as [eu He]; [lia | lia|].
  eexists. by apply init_Some; cbn; [lia | |].
Qed.

End Run.

(** ** The claims on the engine and the pipeline *)

Section EngineClaims.

(** C4: when [assign_backtrace] returns False, every group holds the
    sequence it held before the call, whatever the table, the people and
    the predicate. *)
Theorem assign_backtrace_failure_restores (m : Z) (can : Admissible)
    (people : list Person) (index : nat) (t t' : Table) :
  assign_backtrace m can people index t = Some (false, t') →
  table_equiv t' t.
Proof. apply assign_backtrace_restores. Qed.

Lemma assign_backtrace_failure_restores_witness :
  ∃ t', assign_backtrace 1 (leaders_can_assign_func Sample.two_leaders)
          [Sample.L; Sample.L1] 0 ∅ = Some (false, t')
        ∧ table_equiv t' ∅.
Proof.
  destruct (assign_backtrace 1 (leaders_can_assign_func Sample.two_leaders)
              [Sample.L; Sample.L1] 0 ∅) as [[[|] t']|] eqn:E.
  - vm_compute in E. discriminate E.
  - exists t'. split; [reflexivity|].
    exact (assign_backtrace_failure_restores _ _ _ _ _ _ E).
  - vm_compute in E. discriminate E.
Defined.

(** C5: for a predicate that reads the table through the group sequences,
    [assign_backtrace] succeeds at once when the index is the length of
    the list, and otherwise runs the loop over the groups 0 .. M-1 for
    the person at the index, recursing on the next index.  On success the
    table is the one obtained by placing the remaining people in list
    order, each into a group that admitted them when they were placed,
    and the groups chosen are the lexicographically lowest such choice;
    on failure no choice of groups admits everybody.  When the predicate
    never raises and the index is within the list, the call returns. *)
Theorem assign_backtrace_finds_lowest (m : Z) (can : Admissible)
    (people : list Person) (index : nat) (t : Table) :
  extensional can →
  (index = length people →
   assign_backtrace m can people index t = Some (true, t))
  ∧ (∀ person, people !! index = Some person →
       assign_backtrace m can people index t
       = for_groups can (assign_backtrace m can people (S index))
           person (group_ids m) t)
  ∧ (∀ t', assign_backtrace m can people index t = Some (true, t') →
       ∃ choice tr,
         Forall (λ g, g ∈ group_ids m) choice
         ∧ place_all can (drop index people) choice t = Some tr
         ∧ table_equiv tr t'
         ∧ ∀ choice', admissible_choice m can (drop index people) choice' t →
                      lex_le choice choice')
  ∧ (∀ t', assign_backtrace m can people index t = Some (false, t') →
       ∀ choice, Forall (λ g, g ∈ group_ids m) choice →
                 place_all can (drop index people) choice t = None)
  ∧ (total_predicate m can → (index ≤ length people)%nat →
     is_Some (assign_backtrace m can people index t)).
Proof.
  intros Hext. split_and!.
  - intros ->. rewrite assign_backtrace_unfold. by rewrite bool_decide_eq_true_2.
  - intros person E. rewrite assign_backtrace_unfold, E.
    rewrite bool_decide_eq_false_2; [done|].
    apply lookup_lt_Some in E. lia.
  - intros t' H. by apply assign_backtrace_search in H.
  - intros t' H. apply assign_backtrace_search in H as [_ H]; done.
  - intros. by apply assign_backtrace_total.
Qed.

Lemma assign_backtrace_finds_lowest_witness :
  extensional (leaders_can_assign_func Sample.two_leaders)
  ∧ ∀ choice, Forall (λ g, g ∈ group_ids 1) choice →
      place_all (leaders_can_assign_func Sample.two_leaders)
        [Sample.L; Sample.L1] choice ∅ = None.
Proof.
  split; [apply leaders_extensional|].
  destruct (assign_backtrace_finds_lowest 1
              (leaders_can_assign_func Sample.two_leaders)
              [Sample.L; Sample.L1] 0 ∅ (leaders_extensional _))
    as (_ & _ & _ & Hfail & _).
  destruct (assign_backtrace 1 (leaders_can_assign_func Sample.two_leaders)
              [Sample.L; Sample.L1] 0 ∅) as [[[|] t']|] eqn:E.
  - vm_compute in E. discriminate E.
  - exact (Hfail t' eq_refl).
  - vm_compute in E. discriminate E.
Defined.

End EngineClaims.

Global Instance RefRuntime_laws : RuntimeLaws RefRuntime.runtime.
Proof. split. intros A s l. reflexivity. Qed.

Section PipelineClaims.

Context {rt : Runtime}.

Lemma table_empty_total g : (∅ : Table) !!! g = [].
Proof. by rewrite lookup_total_empty. Qed.

Lemma external_count_zero l :
  external_count l = 0 ↔ Forall (λ p, is_external p = false) l.
Proof.
  induction l as [|p l IH].
  - split; [constructor | done].
  - rewrite external_count_cons, Forall_cons, <- IH.
    pose proof (external_count_nonneg l). destruct (is_external p); split.
    + lia.
    + intros [? _]. done.
    + intros H0. split; [done | lia].
    + intros [_ ?]. lia.
Qed.

Lemma filter_external_nil l :
  Forall (λ p, is_external p = false) l →
  filter (λ mem, is_external mem = true) l = [].
Proof.
  induction 1 as [|p l Hp _ IH]; [done|].
  rewrite filter_cons. rewrite decide_False by congruence. done.
Qed.

Lemma filter_keeps_Forall (P : Person → Prop) (Q : Person → Prop)
    `{!∀ x, Decision (Q x)} l :
  Forall P l → Forall P (filter Q l).
Proof.
  induction 1 as [|p l Hp _ IH]; [constructor|].
  rewrite filter_cons. case_decide; [by constructor | done].
Qed.

Lemma set_assigned_groups_id st :
  set_assigned_groups st (assigned_groups st) = st.
Proof. by destruct st. Qed.

(** A phase with nobody to place succeeds and changes nothing. *)
Lemma run_phase_nil st can : run_phase st can [] = Some (true, st).
Proof.
  unfold run_phase. rewrite assign_backtrace_unfold.
  rewrite bool_decide_eq_true_2 by done. by rewrite set_assigned_groups_id.
Qed.

(** C6: the predicate of the leader phase accepts a leader for a group
    exactly when the group has an exclusion list that does not hold the
    leader's province and the group is empty; and when the leader phase
    of a run succeeds, every group holds exactly one person, a leader
    whose province the group does not exclude. *)
Theorem leaders_phase_one_leader_each `{!RuntimeLaws rt} :
  (∀ (st : State) (t : Table) (person : Person) (g : nat),
     leaders_can_assign_func st person g t = Some true
     ↔ (∃ excl, groups st !! g = Some excl ∧ province person ∉ excl)
       ∧ t !!! g = [])
  ∧ (∀ (st : State) (seed : Z) (text : string) (st0 st1 st2 : State),
       parse_input st text = Some st0 →
       init (shuffle seed st0) = Some st1 →
       assign_leaders st1 = Some (true, st2) →
       ∀ g, g ∈ group_ids (M st1) →
         ∃ leader excl,
           group_of st2 g = [leader]
           ∧ leader ∈ group_leaders st1
           ∧ groups st1 !! g = Some excl
           ∧ province leader ∉ excl).
Proof.
  split; [intros; apply leaders_accepts|].
  intros st seed text st0 st1 st2 Hparse Hinit Hlead.
  apply parse_input_post in Hparse as (Htab & HM & Hlen & _ & _).
  apply init_inv in Hinit as (_ & upper & eu & _ & _ & ->).
  apply assign_leaders_one_each; [| |done].
  - intros g. cbn. rewrite Htab. apply table_empty_total.
  - cbn. rewrite <- Hlen. apply Permutation_length, random_shuffle_perm.
Qed.

(** C7: on an input that parses with M ≥ 1, [run] returns, and what it
    returns is one of the four failure messages or the formatted table;
    the table is returned only after [check] returned True on the final
    state; each failure message stands for the first call that failed,
    the calls after it not having been made; the messages are pairwise
    distinct and none is a formatted table; after a leader failure the
    table is empty. *)
Theorem run_returns_table_or_cause (st : State) (seed : Z) (text : string)
    (st0 : State) :
  parse_input st text = Some st0 → 1 ≤ M st0 →
  ∃ st1 out st',
    init (shuffle seed st0) = Some st1
    ∧ run st seed text = Some (out, st')
    ∧ outcome st1 out st'
    ∧ NoDup failure_messages
    ∧ (out ∈ failure_messages
       ∨ ((out ∉ failure_messages)
          ∧ check st' = Some true ∧ format_output st' = Some out))
    ∧ (out = msg_leaders_failed → ∀ g, group_of st' g = []).
Proof.
  intros Hparse HM. rewrite (run_inv _ _ _ _ Hparse).
  pose proof (parse_input_post _ _ _ Hparse) as (Htab & _ & _ & Hlen & _).
  destruct (init_after_parse _ seed _ _ Hparse HM) as [st1 Hinit].
  rewrite Hinit.
  pose proof (init_inv _ _ Hinit) as (_ & upper & eu & _ & _ & Hst1).
  destruct (run_phases_outcome st1) as (out & st' & Hrun & Hout).
  { subst st1. cbn. done. }
  exists st1, out, st'. cbn. split_and!; [done | done | done | | |].
  - apply failure_messages_NoDup.
  - destruct Hout as [| | | |s2 s3 st' res Hl He Hm Hc Hf];
      try (left; unfold failure_messages; set_solver).
    right. destruct (format_output_prefix st' res) as [rest ->]; [|done|].
    + apply run_phase_inv in Hl as (? & _ & ->).
      apply run_phase_inv in He as (? & _ & ->).
      apply run_phase_inv in Hm as (? & _ & ->).
      subst st1. cbn. lia.
    + split_and!; [apply prefix_not_failure | done | done].
  - intros ->. inversion Hout as [st'' Hl| | | |s2 s3 st'' res Hl He Hm Hc Hf];
      subst.
    + apply run_phase_failed in Hl. intros g. unfold group_of.
      rewrite (Hl g). cbn. rewrite Htab. apply table_empty_total.
    + destruct (format_output_prefix st' msg_leaders_failed) as [rest Hr];
        [|done|discriminate Hr].
      apply run_phase_inv in Hl as (? & _ & ->).
      apply run_phase_inv in He as (? & _ & ->).
      apply run_phase_inv in Hm as (? & _ & ->). cbn. lia.
Qed.

(** C9: the result of [run] and the state it leaves depend on the seed
    and the text only, not on the state the object was in; the shuffle
    orders the leaders from the seeded generator and then the members
    from the generator state the first shuffle left. *)
Theorem run_deterministic (st1 st2 : State) (seed : Z) (text : string) :
  run st1 seed text = run st2 seed text
  ∧ ∀ st,
      group_leaders (shuffle seed st)
      = (random_shuffle Person (random_seed seed) (group_leaders st)).1
      ∧ group_members (shuffle seed st)
        = (random_shuffle Person
             (random_shuffle Person (random_seed seed) (group_leaders st)).2
             (group_members st)).1.
Proof.
  split; [|done]. unfold run, parse_input.
  destruct (_ !! 0%nat ≫= str_int) as [m|]; [|done]. cbn.
  destruct (_ !! 1%nat ≫= str_int) as [n|]; [|done]. cbn.
  destruct (read_people _ (Py.range 0 m) _ _) as [[leaders e1]|]; [|done]. cbn.
  destruct (read_people _ (Py.range m (m + n)) _ _) as [[members e2]|];
    [|done]. cbn.
  case_bool_decide; [done|]. case_bool_decide; [done|]. cbn.
  unfold init, shuffle. cbn. done.
Qed.

(** C8, as amended: on an input that parses with M ≥ 1 and no external at
    all, the external phase has nobody to place and succeeds without
    changing the state, and [run] returns the leader, the member or the
    validation failure message, never the external one. *)
Theorem no_external_never_external_failure `{!RuntimeLaws rt}
    (st : State) (seed : Z) (text : string) (st0 : State) :
  parse_input st text = Some st0 → 1 ≤ M st0 → external_num st0 = 0 →
  ∃ st1 out st',
    init (shuffle seed st0) = Some st1
    ∧ (∀ s2, assign_leaders st1 = Some (true, s2) →
             assign_externals s2 = Some (true, s2))
    ∧ run st seed text = Some (out, st')
    ∧ out ∈ [msg_leaders_failed; msg_members_failed; msg_check_failed]
    ∧ out ≠ msg_externals_failed.
Proof.
  intros Hparse HM HE. rewrite (run_inv _ _ _ _ Hparse).
  pose proof (parse_input_post _ _ _ Hparse) as (Htab & _ & _ & Hlen & Hext).
  pose proof (external_count_nonneg (group_leaders st0)).
  pose proof (external_count_nonneg (group_members st0)).
  assert (Forall (λ p, is_external p = false) (group_leaders st0)) as HFl
    by (apply external_count_zero; lia).
  assert (Forall (λ p, is_external p = false) (group_members st0)) as HFm
    by (apply external_count_zero; lia).
  destruct (init_after_parse _ seed _ _ Hparse HM) as [st1 Hinit].
  rewrite Hinit.
  pose proof (init_inv _ _ Hinit) as (_ & upper & eu & _ & _ & Hst1).
  cbn in Hst1.
  set (leaders' := (random_shuffle Person (random_seed seed) (group_leaders st0))) in *.
  set (members' := (random_shuffle Person leaders'.2 (group_members st0))) in *.
  assert (Forall (λ p, is_external p = false) leaders'.1) as HFl'.
  { unfold leaders'. by rewrite random_shuffle_perm. }
  assert (Forall (λ p, is_external p = false) members'.1) as HFm'.
  { unfold members'. by rewrite random_shuffle_perm. }
  assert (∀ s2, assign_leaders st1 = Some (true, s2) →
                assign_externals s2 = Some (true, s2)) as Hnoop.
  { intros s2 (t2 & _ & ->)%run_phase_inv.
    unfold assign_externals.
    replace (group_members_external (set_assigned_groups st1 t2))
      with (@nil Person); [apply run_phase_nil|].
    subst st1. cbn. by rewrite filter_external_nil. }
  destruct (run_phases_outcome st1) as (out & st' & Hrun & Hout).
  { subst st1. cbn. done. }
  exists st1, out, st'. cbn. split; [done|]. split; [done|]. split; [done|].
  assert (out ∈ [msg_leaders_failed; msg_members_failed; msg_check_failed])
    as Hin.
  { destruct Hout as [|s2 st' Hl He| | |s2 s3 st' res Hl He Hm Hc Hf].
    - left.
    - apply Hnoop in Hl. congruence.
    - right; left.
    - do 2 right; left.
    - exfalso.
      assert (∀ g, Forall (λ p, is_external p = false) (assigned_groups st' !!! g))
        as Hall.
      { eapply (run_phase_Forall _ _ _ _ _ _ (members_extensional _) Hm).
        - apply run_phase_inv in He as (? & _ & ->).
          apply run_phase_inv in Hl as (? & _ & ->). subst st1. cbn.
          by apply filter_keeps_Forall.
        - eapply (run_phase_Forall _ _ _ _ _ _ (externals_extensional _) He).
          + apply run_phase_inv in Hl as (? & _ & ->). subst st1. cbn.
            by rewrite filter_external_nil.
          + eapply (run_phase_Forall _ _ _ _ _ _ (leaders_extensional _) Hl).
            * subst st1. cbn. done.
            * intros g. subst st1. cbn. rewrite Htab, table_empty_total.
              constructor. }
      apply check_true_iff in Hc.
      assert (M st' = M st0) as HM'.
      { apply run_phase_inv in Hl as (? & _ & ->).
        apply run_phase_inv in He as (? & _ & ->).
        apply run_phase_inv in Hm as (? & _ & ->). subst st1. done. }
      assert (0%nat ∈ group_ids (M st')) as Hin0 by (apply elem_of_seq; lia).
      pose proof (accepted_external st' Hc 0%nat Hin0) as H1.
      unfold group_of in H1. specialize (Hall 0%nat).
      apply external_count_zero in Hall. lia. }
  split; [done|]. intros ->.
  pose proof failure_messages_NoDup as Hnd. unfold failure_messages in Hnd.
  apply NoDup_cons in Hnd as [H1 Hnd]. apply NoDup_cons in Hnd as [H2 _].
  apply elem_of_cons in Hin as [Heq|Hin].
  { apply H1. rewrite <- Heq. left. }
  apply H2. done.
Qed.

End PipelineClaims.

(** ** The pipeline on the reference runtime *)

Lemma leaders_phase_one_leader_each_witness :
  ∃ st0 st1 st2,
    parse_input (rt := RefRuntime.runtime) initial Sample.scenario_text = Some st0
    ∧ init (shuffle (rt := RefRuntime.runtime) 0 st0) = Some st1
    ∧ assign_leaders st1 = Some (true, st2)
    ∧ ∀ g, g ∈ group_ids (M st1) →
        ∃ leader excl,
          group_of st2 g = [leader]
          ∧ leader ∈ group_leaders st1
          ∧ groups st1 !! g = Some excl
          ∧ province leader ∉ excl.
Proof.
  destruct (parse_input (rt := RefRuntime.runtime) initial Sample.scenario_text)
    as [st0|] eqn:E0; [|vm_compute in E0; discriminate E0].
  destruct (init (shuffle (rt := RefRuntime.runtime) 0 st0)) as [st1|] eqn:E1.
  2: { vm_compute in E0. injection E0 as <-. vm_compute in E1. discriminate E1. }
  destruct (assign_leaders st1) as [[[|] st2]|] eqn:E2.
  - exists st0, st1, st2. split_and!; [done | done | done |].
    exact (proj2 (leaders_phase_one_leader_each (rt := RefRuntime.runtime))
             initial 0 Sample.scenario_text st0 st1 st2 E0 E1 E2).
  - vm_compute in E0. injection E0 as <-. vm_compute in E1.
    injection E1 as <-. vm_compute in E2. discriminate E2.
  - vm_compute in E0. injection E0 as <-. vm_compute in E1.
    injection E1 as <-. vm_compute in E2. discriminate E2.
Defined.

Lemma run_returns_table_or_cause_witness :
  ∃ st0,
    parse_input (rt := RefRuntime.runtime) initial Sample.scenario_text = Some st0
    ∧ 1 ≤ M st0
    ∧ ∃ st1 out st',
        init (shuffle (rt := RefRuntime.runtime) 0 st0) = Some st1
        ∧ run (rt := RefRuntime.runtime) initial 0 Sample.scenario_text = Some (out, st')
        ∧ outcome st1 out st'.
Proof.
  destruct (parse_input (rt := RefRuntime.runtime) initial Sample.scenario_text)
    as [st0|] eqn:E0; [|vm_compute in E0; discriminate E0].
  assert (1 ≤ M st0) as HM.
  { vm_compute in E0. injection E0 as <-. vm_compute. discriminate. }
  exists st0. split_and!; [done | done |].
  destruct (run_returns_table_or_cause (rt := RefRuntime.runtime) initial 0
              Sample.scenario_text st0 E0 HM)
    as (st1 & out & st' & H1 & H2 & H3 & _).
  exists st1, out, st'. split_and!; [done | exact H2 | done].
Defined.

Lemma no_external_never_external_failure_witness :
  ∃ st0,
    parse_input (rt := RefRuntime.runtime) initial Sample.no_external_text = Some st0
    ∧ 1 ≤ M st0 ∧ external_num st0 = 0
    ∧ ∃ out st',
        run (rt := RefRuntime.runtime) initial 0 Sample.no_external_text = Some (out, st')
        ∧ out ≠ msg_externals_failed.
Proof.
  destruct (parse_input (rt := RefRuntime.runtime) initial Sample.no_external_text)
    as [st0|] eqn:E0; [|vm_compute in E0; discriminate E0].
  assert (1 ≤ M st0) as HM.
  { vm_compute in E0. injection E0 as <-. vm_compute. discriminate. }
  assert (external_num st0 = 0) as HE.
  { vm_compute in E0. injection E0 as <-. reflexivity. }
  exists st0. split_and!; [done | done | done |].
  destruct (no_external_never_external_failure (rt := RefRuntime.runtime) initial 0
              Sample.no_external_text st0 E0 HM HE)
    as (st1 & out & st' & _ & _ & H2 & _ & H3).
  exists out, st'. split; [exact H2 | done].
Defined.

(** One leader and no external: the run goes through the three phases
    and fails in the validation, not in the external phase. *)
Lemma no_external_reports_check_failure :
  ∃ st0,
    parse_input (rt := RefRuntime.runtime) initial Sample.no_external_text = Some st0
    ∧ 1 ≤ M st0 ∧ external_num st0 = 0
    ∧ fst <$> run (rt := RefRuntime.runtime) initial 0 Sample.no_external_text
      = Some msg_check_failed
    ∧ msg_check_failed ≠ msg_externals_failed.
Proof.
  eexists. split_and!.
  - vm_compute. reflexivity.
  - vm_compute. discriminate.
  - reflexivity.
  - vm_compute. reflexivity.
  - discriminate.
Qed.

(** * Further properties of the code *)

(** ** Parsing, in full *)

Section ParsingMore.

Context {rt : Runtime}.

Lemma shifted_seq (a : nat) : ∀ k j,
  (λ i : nat, Z.of_nat a + Z.of_nat i) <$> seq j k = Z.of_nat <$> seq (a + j) k.
Proof.
  induction k as [|k IH]; intros j; [done|].
  cbn [seq fmap list_fmap]. f_equal; [lia|].
  rewrite IH. by replace (a + S j)%nat with (S (a + j)) by lia.
Qed.

Lemma range_of_nat (a k : nat) :
  Py.range (Z.of_nat a) (Z.of_nat a + Z.of_nat k) = Z.of_nat <$> seq a k.
Proof.
  unfold Py.range.
  replace (Z.to_nat (Z.of_nat a + Z.of_nat k - Z.of_nat a)) with k by lia.
  rewrite shifted_seq. by rewrite Nat.add_0_r.
Qed.

Lemma getitem_of_nat {A} (l : list A) (i : nat) :
  Py.getitem l (Z.of_nat i) = l !! i.
Proof.
  unfold Py.getitem. rewrite bool_decide_eq_true_2 by lia. by rewrite Nat2Z.id.
Qed.

(** Reading the lines at consecutive indices is reading a segment. *)
Lemma read_people_segment lines : ∀ k a people e people' e',
  read_people lines (Z.of_nat <$> seq a k) people e = Some (people', e') →
  ∃ new, people' = people ++ new
         ∧ mapM get_person_info (take k (drop a lines)) = Some new.
Proof.
  induction k as [|k IH]; intros a people e people' e'; cbn [seq fmap list_fmap read_people].
  - intros [= <- <-]. exists []. by rewrite app_nil_r.
  - rewrite getitem_of_nat.
    destruct (lines !! a) as [line|] eqn:Hline; [|done]. cbn.
    destruct (get_person_info line) as [person|] eqn:Hperson; [|done]. cbn.
    intros (new & -> & Hnew)%IH. exists (person :: new).
    rewrite <- (assoc_L app). split; [done|].
    rewrite (drop_S _ _ _ Hline). cbn [take mapM]. rewrite Hperson. cbn.
    by rewrite Hnew.
Qed.

Lemma slice_segment {A} (l : list A) (a k : nat) :
  (a + k ≤ length l)%nat →
  Py.slice l (Z.of_nat a) (Z.of_nat a + Z.of_nat k) = take k (drop a l).
Proof.
  intros H. unfold Py.slice, Py.slice_bound.
  rewrite !bool_decide_eq_false_2 by lia.
  rewrite !Z.min_l by lia. f_equal; [lia | f_equal; lia].
Qed.

Lemma parse_input_inv st text st0 :
  parse_input st text = Some st0 →
  ∃ m n leaders e1 members e2,
    nonblank_lines text !! 0%nat ≫= str_int = Some m
    ∧ nonblank_lines text !! 1%nat ≫= str_int = Some n
    ∧ read_people (drop 2 (nonblank_lines text)) (Py.range 0 m) [] 0
      = Some (leaders, e1)
    ∧ read_people (drop 2 (nonblank_lines text)) (Py.range m (m + n)) [] e1
      = Some (members, e2)
    ∧ m + n + m ≤ Z.of_nat (length (drop 2 (nonblank_lines text)))
    ∧ Z.of_nat (length (Py.slice (drop 2 (nonblank_lines text))
                          (m + n) (m + n + m))) = m
    ∧ st0 = mkState m n e2
              (group_person_lower_limit st) (group_person_upper_limit st)
              (group_external_upper_limit st)
              ∅ leaders members
              (str_split <$> Py.slice (drop 2 (nonblank_lines text))
                               (m + n) (m + n + m))
              (group_members_no_external st) (group_members_external st)
              (max_group_external_touch_upper_limit st)
              (max_group_member_touch_upper_limit st).
Proof.
  unfold parse_input. fold (nonblank_lines text).
  destruct (_ !! 0%nat ≫= str_int) as [m|]; [|done]. cbn.
  destruct (_ !! 1%nat ≫= str_int) as [n|]; [|done]. cbn.
  destruct (read_people _ (Py.range 0 m) _ _) as [[leaders e1]|] eqn:Hl; [|done].
  cbn.
  destruct (read_people _ (Py.range m (m + n)) _ _) as [[members e2]|] eqn:Hm;
    [|done]. cbn.
  case_bool_decide as Hend; [done|]. case_bool_decide as Hlen; [done|].
  intros [= <-]. exists m, n, leaders, e1, members, e2.
  rewrite length_fmap in Hlen. split_and!; try done. lia.
Qed.

End ParsingMore.

Section ParsingClaims.

Context {rt : Runtime}.

(** X1: when [parse_input] returns, the table is empty, the group count is
    not negative, there are as many leaders and as many exclusion lists as
    groups, as many members as N says (none when N is negative), the
    external count is the number of externals among the leaders and
    members read, and the derived limits are still those of the state
    before the call. *)
Theorem parse_input_resets (st : State) (text : string) (st0 : State) :
  parse_input st text = Some st0 →
  assigned_groups st0 = ∅
  ∧ 0 ≤ M st0
  ∧ length (group_leaders st0) = Z.to_nat (M st0)
  ∧ length (group_members st0) = Z.to_nat (N st0)
  ∧ length (groups st0) = Z.to_nat (M st0)
  ∧ external_num st0
    = external_count (group_leaders st0) + external_count (group_members st0)
  ∧ limits st0 = limits st.
Proof.
  intros (m & n & leaders & e1 & members & e2 & _ & _ & Hl & Hm & _ & Hlen & ->)
    %parse_input_inv. cbn.
  apply read_people_spec in Hl as (newl & -> & Hll & ->).
  apply read_people_spec in Hm as (newm & -> & Hlm & ->).
  rewrite !app_nil_l, length_range in *. rewrite length_fmap.
  split_and!; [done | lia | rewrite Hll; f_equal; lia | rewrite Hlm; f_equal; lia
              | lia | lia | done].
Qed.

(** X2: when [parse_input] returns with N not negative, the first two
    non-blank lines are M and N, at least M+N+M lines follow them, the
    leaders are the first M of these lines, the members the next N and the
    exclusion lists the split of the M lines after them; all three are
    read in the order of the text. *)
Theorem parse_input_layout (st : State) (text : string) (st0 : State) :
  parse_input st text = Some st0 → 0 ≤ N st0 →
  nonblank_lines text !! 0%nat ≫= str_int = Some (M st0)
  ∧ nonblank_lines text !! 1%nat ≫= str_int = Some (N st0)
  ∧ M st0 + N st0 + M st0 ≤ Z.of_nat (length (drop 2 (nonblank_lines text)))
  ∧ mapM get_person_info
      (take (Z.to_nat (M st0)) (drop 2 (nonblank_lines text)))
    = Some (group_leaders st0)
  ∧ mapM get_person_info
      (take (Z.to_nat (N st0))
         (drop (Z.to_nat (M st0)) (drop 2 (nonblank_lines text))))
    = Some (group_members st0)
  ∧ groups st0
    = str_split <$> take (Z.to_nat (M st0))
                      (drop (Z.to_nat (M st0 + N st0))
                         (drop 2 (nonblank_lines text))).
Proof.
  intros (m & n & leaders & e1 & members & e2 & H0 & H1 & Hl & Hm & Hend & Hlen & ->)
    %parse_input_inv HN. cbn in *.
  assert (0 ≤ m) as Hm0 by lia.
  set (rest := drop 2 (nonblank_lines text)) in *.
  pose proof (range_of_nat 0 (Z.to_nat m)) as Hr0.
  rewrite Z.add_0_l, Z2Nat.id in Hr0 by done. change (Z.of_nat 0) with 0 in Hr0.
  rewrite Hr0 in Hl.
  apply read_people_segment in Hl as (newl & -> & Hnewl).
  pose proof (range_of_nat (Z.to_nat m) (Z.to_nat n)) as Hr1.
  rewrite !Z2Nat.id in Hr1 by done. rewrite Hr1 in Hm.
  apply read_people_segment in Hm as (newm & -> & Hnewm).
  split_and!; [done | done | done | done | done |].
  f_equal.
  pose proof (slice_segment rest (Z.to_nat (m + n)) (Z.to_nat m)) as Hs.
  rewrite !Z2Nat.id in Hs by lia. apply Hs. lia.
Qed.

(** X3: [get_person_info] returns a person exactly for a line of two or
    three fields; the first two fields are the name and the province, and
    the person is external exactly when there is a third field and it is
    the external marker: any other third field is accepted and ignored. *)
Theorem get_person_info_fields (text : string) (person : Person) :
  get_person_info text = Some person
  ↔ (str_split text = [name person; province person]
     ∧ is_external person = false)
    ∨ (∃ tag, str_split text = [name person; province person; tag]
              ∧ is_external person = bool_decide (tag = "外部")).
Proof.
  unfold get_person_info. destruct person as [nm pr ext]. cbn.
  destruct (str_split text) as [|a [|b [|c [|d l]]]] eqn:E; cbn.
  - split; [done | intros [[? _]|(? & ? & _)]; done].
  - split; [done | intros [[? _]|(? & ? & _)]; done].
  - split.
    + intros [= <- <- <-]. by left.
    + intros [[[= <- <-] ->]|(? & ? & _)]; done.
  - split.
    + intros [= <- <- <-]. right. exists c. split; [done|].
      apply bool_decide_ext. split; [intros [_ [= ->]]; done | intros ->; done].
    + intros [[? _]|(tag & [= <- <- <-] & ->)]; [done|]. do 2 f_equal.
      apply bool_decide_ext. split; [intros [_ [= ->]]; done | intros ->; done].
  - rewrite bool_decide_eq_true_2 by (cbn; lia).
    split; [done | intros [[? _]|(? & ? & _)]; done].
Qed.

End ParsingClaims.

Lemma parse_input_resets_witness :
  ∃ st0,
    parse_input (rt := RefRuntime.runtime) Sample.over_quota
      Sample.scenario_text = Some st0
    ∧ assigned_groups st0 = ∅
    ∧ length (group_leaders st0) = 2%nat
    ∧ limits st0 = limits Sample.over_quota.
Proof.
  destruct (parse_input (rt := RefRuntime.runtime) Sample.over_quota
              Sample.scenario_text) as [st0|] eqn:E0;
    [|vm_compute in E0; discriminate E0].
  exists st0.
  destruct (parse_input_resets (rt := RefRuntime.runtime) _ _ _ E0)
    as (H1 & _ & H3 & _ & _ & _ & H7).
  split_and!; [done | done | | done].
  rewrite H3. vm_compute in E0. by injection E0 as <-.
Defined.

Lemma parse_input_layout_witness :
  ∃ st0,
    parse_input (rt := RefRuntime.runtime) initial Sample.scenario_text
    = Some st0
    ∧ 0 ≤ N st0
    ∧ groups st0
      = str_split (Runtime := RefRuntime.runtime)
          <$> take (Z.to_nat (M st0))
                (drop (Z.to_nat (M st0 + N st0))
                   (drop 2 (nonblank_lines (rt := RefRuntime.runtime)
                              Sample.scenario_text))).
Proof.
  destruct (parse_input (rt := RefRuntime.runtime) initial
              Sample.scenario_text) as [st0|] eqn:E0;
    [|vm_compute in E0; discriminate E0].
  assert (0 ≤ N st0) as HN.
  { vm_compute in E0. injection E0 as <-. vm_compute. discriminate. }
  exists st0. split_and!; [done | done |].
  exact (proj2 (proj2 (proj2 (proj2 (proj2
    (parse_input_layout (rt := RefRuntime.runtime) _ _ _ E0 HN)))))).
Defined.

(** ** The limits, in full *)

Section LimitsMore.

(** The quota of groups at the ceiling [hi] is what makes [m] groups, each
    at [hi] or one below, hold [a] in all. *)
Lemma quota_identity (a m hi : Z) :
  0 < m →
  (hi - 1) * m < a ∧ a ≤ hi * m →
  let q := remapped (a `mod` m) m in
  1 ≤ q ∧ q ≤ m ∧ q * hi + (m - q) * (hi - 1) = a
  ∧ (a `div` m = if bool_decide (a `mod` m = 0) then hi else hi - 1).
Proof.
  intros Hm [H1 H2] q. subst q. unfold remapped.
  pose proof (Z.div_mod a m ltac:(lia)) as Hdm.
  pose proof (Z.mod_pos_bound a m Hm) as Hr.
  set (d := a `div` m) in *. set (r := a `mod` m) in *. clearbody d r.
  assert (d = if bool_decide (r = 0) then hi else hi - 1) as Hd.
  { case_bool_decide; nia. }
  split_and!; [case_bool_decide; lia | case_bool_decide; lia | | done].
  case_bool_decide; subst d; nia.
Qed.

(** X4: for M ≥ 1 and N ≥ 0 with M+N below 2^53 the limits [init] sets
    satisfy: the lower limit is at least one, the upper limit is the lower
    limit or one more, and equal to it exactly when M divides M+N; the
    member touch quota lies between 1 and M, and that many groups at the
    upper limit with the other groups at the lower limit hold M+N people
    in all. *)
Theorem init_size_quota (st st1 : State) :
  init st = Some st1 → 1 ≤ M st → 0 ≤ N st → M st + N st < 2 ^ 53 →
  1 ≤ group_person_lower_limit st1
  ∧ group_person_lower_limit st1 ≤ group_person_upper_limit st1
  ∧ group_person_upper_limit st1 ≤ group_person_lower_limit st1 + 1
  ∧ (group_person_upper_limit st1 = group_person_lower_limit st1
     ↔ (M st + N st) `mod` M st = 0)
  ∧ 1 ≤ max_group_member_touch_upper_limit st1
  ∧ max_group_member_touch_upper_limit st1 ≤ M st
  ∧ max_group_member_touch_upper_limit st1 * group_person_upper_limit st1
    + (M st - max_group_member_touch_upper_limit st1)
      * group_person_lower_limit st1
    = M st + N st.
Proof.
  intros Hinit HM HN HT.
  apply init_inv in Hinit as (_ & upper & eu & Hu & _ & ->).
  destruct (ceil_div_exact (M st + N st) (M st)) as (c & Hc & Hcu);
    [lia | lia|].
  assert (c = upper) as -> by congruence.
  cbn. pose proof (quota_identity (M st + N st) (M st) upper ltac:(lia) Hcu)
    as (H1 & H2 & H3 & H4). cbn zeta in *.
  assert (1 ≤ (M st + N st) `div` M st) as Hlo.
  { apply Z.div_le_lower_bound; lia. }
  unfold remapped in *. rewrite H4 in *. clear H4.
  case_bool_decide as Hmod; repeat split; intros; first [done | lia | nia].
Qed.

Lemma init_size_quota_witness :
  ∃ st1,
    init Sample.parsed = Some st1
    ∧ 1 ≤ M Sample.parsed ∧ 0 ≤ N Sample.parsed
    ∧ M Sample.parsed + N Sample.parsed < 2 ^ 53
    ∧ max_group_member_touch_upper_limit st1 * group_person_upper_limit st1
      + (M Sample.parsed - max_group_member_touch_upper_limit st1)
        * group_person_lower_limit st1
      = M Sample.parsed + N Sample.parsed.
Proof.
  destruct (init Sample.parsed) as [st1|] eqn:E;
    [|vm_compute in E; discriminate E].
  assert (1 ≤ M Sample.parsed) as HM by (cbn; lia).
  assert (0 ≤ N Sample.parsed) as HN by (cbn; lia).
  assert (M Sample.parsed + N Sample.parsed < 2 ^ 53) as HT by (cbn; lia).
  exists st1. split_and!; [done | done | done | done |].
  exact (proj2 (proj2 (proj2 (proj2 (proj2 (proj2
    (init_size_quota _ _ E HM HN HT))))))).
Defined.

(** X5: for M ≥ 1 and E ≥ 0, both below 2^53, the external ceiling [init]
    sets is zero when there is no external and at least one otherwise; the
    external touch quota lies between 1 and M, and that many groups at the
    ceiling with the other groups one below it hold E externals in all. *)
Theorem init_external_quota (st st1 : State) :
  init st = Some st1 → 1 ≤ M st → M st < 2 ^ 53 →
  0 ≤ external_num st → external_num st < 2 ^ 53 →
  0 ≤ group_external_upper_limit st1
  ∧ (1 ≤ group_external_upper_limit st1 ↔ 1 ≤ external_num st)
  ∧ 1 ≤ max_group_external_touch_upper_limit st1
  ∧ max_group_external_touch_upper_limit st1 ≤ M st
  ∧ max_group_external_touch_upper_limit st1 * group_external_upper_limit st1
    + (M st - max_group_external_touch_upper_limit st1)
      * (group_external_upper_limit st1 - 1)
    = external_num st.
Proof.
  intros Hinit HM HM' HE HE'.
  apply init_inv in Hinit as (_ & upper & eu & _ & Heu & ->).
  destruct (ceil_div_exact (external_num st) (M st)) as (c & Hc & Hce);
    [lia | lia|].
  assert (c = eu) as -> by congruence.
  cbn. pose proof (quota_identity (external_num st) (M st) eu ltac:(lia) Hce)
    as (H1 & H2 & H3 & H4). cbn zeta in *.
  destruct Hce as [H5 H6].
  repeat split; intros; first [lia | nia].
Qed.

Lemma init_external_quota_witness :
  ∃ st1,
    init Sample.parsed = Some st1
    ∧ 1 ≤ M Sample.parsed ∧ M Sample.parsed < 2 ^ 53
    ∧ 0 ≤ external_num Sample.parsed ∧ external_num Sample.parsed < 2 ^ 53
    ∧ (1 ≤ group_external_upper_limit st1 ↔ 1 ≤ external_num Sample.parsed).
Proof.
  destruct (init Sample.parsed) as [st1|] eqn:E;
    [|vm_compute in E; discriminate E].
  assert (1 ≤ M Sample.parsed) as HM by (cbn; lia).
  assert (M Sample.parsed < 2 ^ 53) as HM' by (cbn; lia).
  assert (0 ≤ external_num Sample.parsed) as HE by (cbn; lia).
  assert (external_num Sample.parsed < 2 ^ 53) as HE' by (cbn; lia).
  exists st1. split_and!; [done | done | done | done | done |].
  exact (proj1 (proj2 (init_external_quota _ _ E HM HM' HE HE'))).
Defined.

(** X6: [init] raises when M is zero (ZeroDivisionError) and when the
    quotient (M+N)/M or E/M is 2^1024 or more in absolute value
    (OverflowError); it returns when M is not zero and M+N and E are below
    2^1023 in absolute value.  When it returns it has left the table, the
    leaders, the members and the exclusion lists as they were, and has
    split the members in two lists that together are the members: the
    externals, in their order, and the others, in theirs. *)
Theorem init_splits_members (st : State) :
  (M st = 0 → init st = None)
  ∧ (M st ≠ 0 → 2 ^ 1024 * Z.abs (M st) ≤ Z.abs (M st + N st) →
     init st = None)
  ∧ (M st ≠ 0 → 2 ^ 1024 * Z.abs (M st) ≤ Z.abs (external_num st) →
     init st = None)
  ∧ (M st ≠ 0 → Z.abs (M st + N st) < 2 ^ 1023 →
     Z.abs (external_num st) < 2 ^ 1023 → is_Some (init st))
  ∧ ∀ st1, init st = Some st1 →
      M st ≠ 0
      ∧ assigned_groups st1 = assigned_groups st
      ∧ group_leaders st1 = group_leaders st
      ∧ group_members st1 = group_members st
      ∧ groups st1 = groups st
      ∧ group_members_external st1
        = filter (λ mem, is_external mem = true) (group_members st)
      ∧ group_members_no_external st1
        = filter (λ mem, is_external mem = false) (group_members st)
      ∧ group_members_external st1 ++ group_members_no_external st1
        ≡ₚ group_members st.
Proof.
  split_and!.
  - intros HM. apply init_None. by left.
  - intros HM Hbig. apply init_None. right; left.
    by apply ceil_div_overflow.
  - intros HM Hbig. apply init_None. right; right.
    by apply ceil_div_overflow.
  - intros HM HT HE.
    destruct (ceil_div_returns (M st + N st) (M st) HM HT) as [upper Hu].
    destruct (ceil_div_returns (external_num st) (M st) HM HE) as [eu He].
    eexists. by apply init_Some.
  - intros st1 Hinit.
    apply init_inv in Hinit as (HM & upper & eu & _ & _ & ->). cbn.
    split_and!; try done.
    rewrite <- (filter_app_complement (λ mem, is_external mem = true)
                  (group_members st)) at 3.
    assert (filter (λ mem, is_external mem = false) (group_members st)
            = filter (λ mem, ¬ is_external mem = true) (group_members st))
      as ->; [|done].
    apply list_filter_iff. intros p. destruct (is_external p); split; congruence.
Qed.

Lemma init_splits_members_witness :
  (∃ st1, init Sample.parsed = Some st1
          ∧ group_members_external st1 ++ group_members_no_external st1
            ≡ₚ group_members Sample.parsed)
  ∧ M MoreSamples.flood ≠ 0
  ∧ 2 ^ 1024 * Z.abs (M MoreSamples.flood)
    ≤ Z.abs (M MoreSamples.flood + N MoreSamples.flood)
  ∧ init MoreSamples.flood = None.
Proof.
  split.
  - destruct (init Sample.parsed) as [st1|] eqn:E;
      [|vm_compute in E; discriminate E].
    exists st1. split; [done|].
    exact (proj2 (proj2 (proj2 (proj2 (proj2 (proj2 (proj2
      (proj2 (proj2 (proj2 (proj2 (init_splits_members Sample.parsed)))) st1 E)))))))).
  - assert (M MoreSamples.flood ≠ 0) as HM by (vm_compute; discriminate).
    assert (2 ^ 1024 * Z.abs (M MoreSamples.flood)
            ≤ Z.abs (M MoreSamples.flood + N MoreSamples.flood)) as Hbig
      by (vm_compute; discriminate).
    split_and!; [done | done |].
    exact (proj1 (proj2 (init_splits_members MoreSamples.flood)) HM Hbig).
Defined.

End LimitsMore.

(** ** Invariants of the engine *)

Section EngineMore.

Context (m : Z) (can : Admissible).

(** *** Invariants of the search *)

Lemma for_groups_keeps (I : Table → Prop) rec person gids :
  (∀ t1 t2, table_equiv t1 t2 → I t1 → I t2) →
  (∀ g t, g ∈ gids → can person g t = Some true → I t →
          I (table_append t g person)) →
  (∀ t ok t', rec t = Some (ok, t') → I t → I t') →
  restores rec →
  ∀ t ok t', for_groups can rec person gids t = Some (ok, t') → I t → I t'.
Proof.
  intros Hresp Hstep Hrec Hrest.
  induction gids as [|g gids IH]; intros t ok t'; cbn [for_groups].
  - by intros [= <- <-].
  - assert (∀ g0 t0, g0 ∈ gids → can person g0 t0 = Some true → I t0 →
                     I (table_append t0 g0 person)) as Hstep'
      by (intros; apply Hstep; [by right | done | done]).
    destruct (can person g t) as [[|]|] eqn:Hcan; [|by apply IH|done].
    destruct (rec (table_append t g person)) as [[[|] t1]|] eqn:Hr; [| |done].
    + intros [= <- <-] Ht. eapply Hrec; [exact Hr|]. apply Hstep; [left|done|done].
    + pose proof (Hrest _ _ Hr) as Ht1.
      apply table_pop_undo in Ht1 as (t2 & -> & Ht2).
      intros H Ht. eapply IH; [done | exact H |].
      eapply Hresp; [|exact Ht]. by symmetry.
Qed.

Lemma assign_backtrace_fuel_keeps (I : Table → Prop) people :
  (∀ t1 t2, table_equiv t1 t2 → I t1 → I t2) →
  (∀ person g t, person ∈ people → g ∈ group_ids m →
                 can person g t = Some true → I t →
                 I (table_append t g person)) →
  ∀ fuel index t ok t',
    assign_backtrace_fuel fuel m can people index t = Some (ok, t') →
    I t → I t'.
Proof.
  intros Hresp Hstep. induction fuel as [|fuel IH]; intros index t ok t'; [done|].
  cbn [assign_backtrace_fuel]. case_bool_decide; [by intros [= <- <-]|].
  destruct (people !! index) as [person|] eqn:E; [|done].
  apply for_groups_keeps; [done | | apply IH | apply assign_backtrace_fuel_restores].
  intros g t0 Hg. apply Hstep; [|done]. by eapply list_elem_of_lookup_2.
Qed.

(** *** Everybody is placed once *)

Lemma all_placed_equiv (t1 t2 : Table) :
  table_equiv t1 t2 → all_placed m t1 = all_placed m t2.
Proof.
  intros H. unfold all_placed. f_equal. apply list_fmap_ext.
  intros _ g _. apply H.
Qed.

Lemma concat_groups_append (t : Table) g person gids :
  NoDup gids →
  concat ((λ g', table_append t g person !!! g') <$> gids)
  ≡ₚ concat ((λ g', t !!! g') <$> gids)
     ++ (if decide (g ∈ gids) then [person] else []).
Proof.
  induction 1 as [|g' gids Hnin Hnd IH]; [done|].
  cbn [fmap list_fmap concat]. rewrite IH, table_append_total.
  destruct (decide (g = g')) as [->|Hne].
  - rewrite (decide_True (P := g' ∈ g' :: gids)) by left.
    rewrite (decide_False (P := g' ∈ gids)) by done.
    rewrite app_nil_r, <- !(assoc_L app). f_equiv. apply Permutation_app_comm.
  - destruct (decide (g ∈ gids)) as [Hin|Hnin'].
    + rewrite (decide_True (P := g ∈ g' :: gids)) by (by right).
      by rewrite (assoc_L app).
    + rewrite (decide_False (P := g ∈ g' :: gids)).
      * by rewrite !app_nil_r.
      * intros [->|?]%elem_of_cons; done.
Qed.

Lemma all_placed_append (t : Table) g person :
  g ∈ group_ids m →
  all_placed m (table_append t g person) ≡ₚ all_placed m t ++ [person].
Proof.
  intros Hg. unfold all_placed.
  rewrite concat_groups_append by apply NoDup_seq. by rewrite decide_True.
Qed.

Lemma for_groups_places rec person (placed : list Person) :
  (∀ t t', rec t = Some (true, t') →
           all_placed m t' ≡ₚ all_placed m t ++ placed) →
  restores rec →
  ∀ gids t t',
    (∀ g, g ∈ gids → g ∈ group_ids m) →
    for_groups can rec person gids t = Some (true, t') →
    all_placed m t' ≡ₚ all_placed m t ++ person :: placed.
Proof.
  intros Hrec Hrest. induction gids as [|g gids IH]; intros t t' Hin;
    cbn [for_groups]; [done|].
  assert (∀ g0, g0 ∈ gids → g0 ∈ group_ids m) as Hin'
    by (intros; apply Hin; by right).
  destruct (can person g t) as [[|]|] eqn:Hcan; [|by apply IH|done].
  destruct (rec (table_append t g person)) as [[[|] t1]|] eqn:Hr; [| |done].
  - intros [= <-]. rewrite (Hrec _ _ Hr), all_placed_append by (apply Hin; left).
    by rewrite <- (assoc_L app).
  - pose proof (Hrest _ _ Hr) as Ht1.
    apply table_pop_undo in Ht1 as (t2 & -> & Ht2).
    intros H%IH; [|done]. by rewrite (all_placed_equiv t2 t) in H.
Qed.

Lemma assign_backtrace_fuel_places people : ∀ fuel index t t',
  assign_backtrace_fuel fuel m can people index t = Some (true, t') →
  all_placed m t' ≡ₚ all_placed m t ++ drop index people.
Proof.
  induction fuel as [|fuel IH]; intros index t t'; [done|].
  cbn [assign_backtrace_fuel]. case_bool_decide as Hi.
  - intros [= <-]. subst index. by rewrite drop_all, app_nil_r.
  - destruct (people !! index) as [person|] eqn:E; [|done].
    rewrite (drop_S _ _ _ E).
    apply for_groups_places; [apply IH | apply assign_backtrace_fuel_restores | done].
Qed.

(** X7: whatever property of the table every admitted placement keeps,
    [assign_backtrace] keeps, on success and on failure, provided the
    property looks at the group sequences only. *)
Theorem assign_backtrace_keeps_invariant (I : Table → Prop)
    (people : list Person) (index : nat) (t : Table) (ok : bool) (t' : Table) :
  (∀ t1 t2, table_equiv t1 t2 → I t1 → I t2) →
  (∀ person g t, person ∈ people → g ∈ group_ids m →
                 can person g t = Some true → I t →
                 I (table_append t g person)) →
  I t →
  assign_backtrace m can people index t = Some (ok, t') →
  I t'.
Proof.
  intros Hresp Hstep Ht Hrun.
  by eapply (assign_backtrace_fuel_keeps I people Hresp Hstep).
Qed.

(** X8: when [assign_backtrace] succeeds, every group holds what it held
    before followed by the people added to it, the groups outside
    [range(M)] hold what they held before, and the people of the groups
    of [range(M)] are those of before together with the people of the
    list from the index on, each once. *)
Theorem assign_backtrace_places_each_once (people : list Person)
    (index : nat) (t t' : Table) :
  assign_backtrace m can people index t = Some (true, t') →
  (∀ g, t !!! g `prefix_of` t' !!! g)
  ∧ (∀ g, g ∉ group_ids m → t' !!! g = t !!! g)
  ∧ all_placed m t' ≡ₚ all_placed m t ++ drop index people.
Proof.
  intros Hrun. split_and!.
  - intros g.
    refine (assign_backtrace_fuel_keeps
              (λ t0, t !!! g `prefix_of` t0 !!! g) people _ _ _ _ _ _ _ Hrun _);
      [| |done].
    + intros t1 t2 H. by rewrite (H g).
    + intros person g' t0 _ _ _ Hp. rewrite table_append_total.
      case_decide; [subst; by apply prefix_app_r | done].
  - intros g Hg.
    refine (assign_backtrace_fuel_keeps
              (λ t0, t0 !!! g = t !!! g) people _ _ _ _ _ _ _ Hrun _);
      [| |done].
    + intros t1 t2 H. by rewrite (H g).
    + intros person g' t0 _ Hg' _ Hp. rewrite table_append_total.
      case_decide; [by subst | done].
  - by apply assign_backtrace_fuel_places in Hrun.
Qed.

(** X9: an index beyond the end of the list raises; with people left to
    place and no group at all (M ≤ 0) the call fails and hands back the
    very table it was given. *)
Theorem assign_backtrace_edges (people : list Person) (index : nat)
    (t : Table) :
  ((length people < index)%nat →
   assign_backtrace m can people index t = None)
  ∧ ((index < length people)%nat → m ≤ 0 →
     assign_backtrace m can people index t = Some (false, t)).
Proof.
  split.
  - intros H. rewrite assign_backtrace_unfold.
    rewrite bool_decide_eq_false_2 by lia.
    by rewrite lookup_ge_None_2 by lia.
  - intros H Hm. rewrite assign_backtrace_unfold.
    rewrite bool_decide_eq_false_2 by lia.
    destruct (lookup_lt_is_Some_2 people index H) as [person ->].
    unfold group_ids. by replace (Z.to_nat m) with 0%nat by lia.
Qed.

End EngineMore.

Lemma assign_backtrace_keeps_invariant_witness :
  ∃ t',
    assign_backtrace 3 (leaders_can_assign_func Sample.parsed)
      [Sample.L0; Sample.L1] 0 ∅ = Some (true, t')
    ∧ ∀ g, (length (t' !!! g) ≤ 1)%nat.
Proof.
  destruct (assign_backtrace 3 (leaders_can_assign_func Sample.parsed)
              [Sample.L0; Sample.L1] 0 ∅) as [[[|] t']|] eqn:E.
  - exists t'. split; [done|].
    refine (assign_backtrace_keeps_invariant 3
              (leaders_can_assign_func Sample.parsed)
              (λ t0, ∀ g, (length (t0 !!! g) ≤ 1)%nat)
              [Sample.L0; Sample.L1] 0 ∅ true t' _ _ _ E).
    + intros t1 t2 H H1 g. rewrite <- (H g). apply H1.
    + intros person g t0 _ _ [_ Hempty]%leaders_accepts H1 g'.
      rewrite table_append_total. case_decide; [|apply H1].
      rewrite Hempty. cbn. lia.
    + intros g. rewrite lookup_total_empty. cbn. lia.
  - vm_compute in E. discriminate E.
  - vm_compute in E. discriminate E.
Defined.

Lemma assign_backtrace_places_each_once_witness :
  ∃ t',
    assign_backtrace 3 (leaders_can_assign_func Sample.parsed)
      [Sample.L0; Sample.L1] 0 ∅ = Some (true, t')
    ∧ all_placed 3 t' ≡ₚ [Sample.L0; Sample.L1].
Proof.
  destruct (assign_backtrace 3 (leaders_can_assign_func Sample.parsed)
              [Sample.L0; Sample.L1] 0 ∅) as [[[|] t']|] eqn:E.
  - exists t'. split; [done|].
    exact (proj2 (proj2 (assign_backtrace_places_each_once 3 _ _ _ _ _ E))).
  - vm_compute in E. discriminate E.
  - vm_compute in E. discriminate E.
Defined.

(** ** Invariants of the phases *)

Section PhasesMore.

(** A phase keeps what every placement its predicate admits keeps. *)
Lemma run_phase_keeps (I : Table → Prop) st can people ok st' :
  (∀ t1 t2, table_equiv t1 t2 → I t1 → I t2) →
  (∀ person g t, person ∈ people → g ∈ group_ids (M st) →
                 can person g t = Some true → I t →
                 I (table_append t g person)) →
  run_phase st can people = Some (ok, st') →
  I (assigned_groups st) → I (assigned_groups st').
Proof.
  intros Hresp Hstep (t' & Hrun & ->)%run_phase_inv Ht. cbn.
  by eapply (assign_backtrace_fuel_keeps (M st) can I people Hresp Hstep).
Qed.

(** A successful phase adds the people of its list, each once. *)
Lemma run_phase_places st can people st' :
  run_phase st can people = Some (true, st') →
  all_placed (M st) (assigned_groups st')
  ≡ₚ all_placed (M st) (assigned_groups st) ++ people.
Proof.
  intros (t' & Hrun & ->)%run_phase_inv.
  apply assign_backtrace_fuel_places in Hrun. by rewrite drop_0 in Hrun.
Qed.

Lemma external_count_snoc group person :
  external_count (group ++ [person])
  = external_count group + (if is_external person then 1 else 0).
Proof.
  rewrite external_count_app, external_count_cons.
  assert (external_count [] = 0) as -> by done.
  destruct (is_external person); lia.
Qed.

Lemma group_size_snoc group (person : Person) :
  group_size (group ++ [person]) = group_size group + 1.
Proof. unfold group_size. rewrite length_app. cbn. lia. Qed.

(** How the number of groups at a ceiling changes with one placement. *)
Lemma touched_count_append (measure : list Person → Z) (limit : Z)
    (t : Table) g person gids :
  NoDup gids →
  Z.of_nat (length (filter
    (λ g', limit ≤ measure (table_append t g person !!! g')) gids))
  = Z.of_nat (length (filter (λ g', limit ≤ measure (t !!! g')) gids))
    + (if decide (g ∈ gids)
       then indicator (limit ≤ measure (t !!! g ++ [person]))
            - indicator (limit ≤ measure (t !!! g))
       else 0).
Proof.
  induction 1 as [|g' gids Hnin Hnd IH]; [done|].
  rewrite !filter_cons, table_append_total.
  destruct (decide (g = g')) as [->|Hne].
  - rewrite (decide_True (P := g' ∈ g' :: gids)) by left.
    rewrite (decide_False (P := g' ∈ gids)) in IH by done.
    unfold indicator. repeat case_decide; cbn [length]; lia.
  - destruct (decide (g ∈ gids)) as [Hin|Hnin'].
    + rewrite (decide_True (P := g ∈ g' :: gids)) by (by right).
      repeat case_decide; cbn [length]; lia.
    + rewrite (decide_False (P := g ∈ g' :: gids))
        by (intros [->|?]%elem_of_cons; done).
      repeat case_decide; cbn [length]; lia.
Qed.

Lemma conflict_free st person g :
  province_conflict st person g = Some false →
  ∃ excl, groups st !! g = Some excl ∧ province person ∉ excl.
Proof.
  intros (excl & ? & Hb)%province_conflict_Some. exists excl. split; [done|].
  symmetry in Hb. by apply bool_decide_eq_false in Hb.
Qed.

Lemma no_conflict_append st t g person :
  (∃ excl, groups st !! g = Some excl ∧ province person ∉ excl) →
  no_conflict st t → no_conflict st (table_append t g person).
Proof.
  intros Hok Ht g' p. rewrite table_append_total. case_decide; [|apply Ht].
  subst g'. intros [Hin| ->%list_elem_of_singleton]%elem_of_app; [by apply Ht | done].
Qed.

Lemma no_conflict_equiv st t1 t2 :
  table_equiv t1 t2 → no_conflict st t1 → no_conflict st t2.
Proof. intros H Ht g p. rewrite <- (H g). apply Ht. Qed.

(** What the predicate of the external phase has checked when it accepts. *)
Lemma externals_accepts st t person g :
  externals_can_assign_func st person g t = Some true →
  (∃ excl, groups st !! g = Some excl ∧ province person ∉ excl)
  ∧ external_count (t !!! g) < group_external_upper_limit st
  ∧ group_size (t !!! g) < group_person_upper_limit st
  ∧ ¬ (group_external_upper_limit st ≤ external_count (t !!! g) + 1
       ∧ max_group_external_touch_upper_limit st ≤ touched_externals st t).
Proof.
  unfold externals_can_assign_func, externals_get_group_touch_limit,
    get_group_external_num.
  rewrite touch_limit_count. fold (touched_externals st t).
  destruct (province_conflict st person g) as [[|]|] eqn:Hc; cbn; try done.
  apply conflict_free in Hc.
  repeat case_bool_decide; cbn; try done.
  all: intros _; split_and!; [done | lia | lia | tauto].
Qed.

(** The predicate of the member phase, in full. *)
Lemma members_accepts st t person g :
  members_can_assign_func st person g t = Some true
  ↔ (∃ excl, groups st !! g = Some excl ∧ province person ∉ excl)
    ∧ group_size (t !!! g) < group_person_upper_limit st
    ∧ ¬ (group_person_upper_limit st ≤ group_size (t !!! g) + 1
         ∧ max_group_member_touch_upper_limit st ≤ touched_sizes st t).
Proof.
  unfold members_can_assign_func, members_get_group_touch_limit.
  rewrite touch_limit_count. fold (touched_sizes st t).
  unfold province_conflict.
  destruct (groups st !! g) as [excl|]; cbn.
  2: { split; [done | intros [(? & ? & _) _]; done]. }
  repeat case_bool_decide; cbn; split; try done;
    try (intros ((? & [= <-] & ?) & ? & ?); first [done | lia | tauto]).
  all: intros _; split_and!; eauto; first [lia | tauto].
Qed.

End PhasesMore.

Section PhaseClaims.

Lemma length_all_placed m (t : Table) :
  length (all_placed m t) = occupancy m t.
Proof.
  unfold all_placed, occupancy, people_in.
  induction (group_ids m) as [|g gids IH]; [done|].
  cbn. rewrite length_app, IH. done.
Qed.

Lemma all_placed_empty m (t : Table) :
  (∀ g, t !!! g = []) → all_placed m t = [].
Proof.
  intros H. unfold all_placed.
  induction (group_ids m) as [|g gids IH]; [done|]. cbn. by rewrite H, IH.
Qed.

Lemma one_each_append (t : Table) g person :
  t !!! g = [] → (∀ g', (length (t !!! g') ≤ 1)%nat) →
  ∀ g', (length (table_append t g person !!! g') ≤ 1)%nat.
Proof.
  intros Hempty H g'. rewrite table_append_total. case_decide; [|apply H].
  rewrite Hempty. cbn. lia.
Qed.

(** What a successful leader phase leaves of an empty table. *)
Lemma assign_leaders_places st st' :
  (∀ g, assigned_groups st !!! g = []) →
  assign_leaders st = Some (true, st') →
  (∀ g, (length (group_of st' g) ≤ 1)%nat)
  ∧ all_placed (M st) (assigned_groups st') ≡ₚ group_leaders st
  ∧ no_conflict st (assigned_groups st').
Proof.
  intros Hempty Hrun. unfold assign_leaders in Hrun. split_and!.
  - refine (run_phase_keeps (λ t, ∀ g, (length (t !!! g) ≤ 1)%nat)
              _ _ _ _ _ _ _ Hrun _).
    + intros t1 t2 H H1 g. rewrite <- (H g). apply H1.
    + intros person g t _ _ [_ He]%leaders_accepts. by apply one_each_append.
    + intros g. rewrite Hempty. cbn. lia.
  - apply run_phase_places in Hrun.
    by rewrite (all_placed_empty _ (assigned_groups st)) in Hrun.
  - refine (run_phase_keeps (no_conflict st) _ _ _ _ _ _ _ Hrun _).
    + apply no_conflict_equiv.
    + intros person g t _ _ [Hok _]%leaders_accepts. by apply no_conflict_append.
    + intros g p. rewrite Hempty. by intros ?%elem_of_nil.
Qed.

(** X10: from an empty table the leader phase cannot succeed with more
    leaders than groups; when it succeeds no group holds more than one
    person, the people in the groups are the leaders, each once, and
    nobody is from a province their group excludes. *)
Theorem assign_leaders_at_most_groups (st st' : State) :
  (∀ g, assigned_groups st !!! g = []) →
  assign_leaders st = Some (true, st') →
  (length (group_leaders st) ≤ Z.to_nat (M st))%nat
  ∧ (∀ g, (length (group_of st' g) ≤ 1)%nat)
  ∧ all_placed (M st) (assigned_groups st') ≡ₚ group_leaders st
  ∧ no_conflict st (assigned_groups st').
Proof.
  intros Hempty Hrun.
  destruct (assign_leaders_places st st' Hempty Hrun) as (H1 & H2 & H3).
  split_and!; try done.
  rewrite <- (Permutation_length H2), length_all_placed. unfold occupancy.
  etrans; [apply people_in_le; intros; apply H1|].
  unfold group_ids. by rewrite length_seq.
Qed.

Lemma assign_leaders_at_most_groups_witness :
  ∃ st',
    (∀ g, assigned_groups Sample.parsed !!! g = [])
    ∧ assign_leaders Sample.parsed = Some (true, st')
    ∧ all_placed (M Sample.parsed) (assigned_groups st')
      ≡ₚ group_leaders Sample.parsed.
Proof.
  assert (∀ g, assigned_groups Sample.parsed !!! g = []) as Hempty.
  { intros g. cbn. by rewrite lookup_total_empty. }
  destruct (assign_leaders Sample.parsed) as [[[|] st']|] eqn:E.
  - exists st'. split_and!; [done | done |].
    exact (proj1 (proj2 (proj2
      (assign_leaders_at_most_groups _ _ Hempty E)))).
  - vm_compute in E. discriminate E.
  - vm_compute in E. discriminate E.
Defined.

(** X11: the predicate of the member phase accepts a person for a group
    exactly when the group has an exclusion list that does not hold the
    person's province, the group's size is below the upper limit, and it
    is not the case that the placement would bring the size to the upper
    limit while the number of groups already at the upper limit has
    reached the member touch quota. *)
Theorem members_predicate_accepts (st : State) (t : Table)
    (person : Person) (g : nat) :
  members_can_assign_func st person g t = Some true
  ↔ (∃ excl, groups st !! g = Some excl ∧ province person ∉ excl)
    ∧ group_size (t !!! g) < group_person_upper_limit st
    ∧ ¬ (group_person_upper_limit st ≤ group_size (t !!! g) + 1
         ∧ max_group_member_touch_upper_limit st ≤ touched_sizes st t).
Proof. apply members_accepts. Qed.

Lemma externals_phase_keeps (st : State) (ok : bool)
    (st' : State) :
  assign_externals st = Some (ok, st') →
  ((∀ g, external_count (group_of st g) ≤ group_external_upper_limit st) →
   ∀ g, external_count (group_of st' g) ≤ group_external_upper_limit st)
  ∧ ((∀ g, group_size (group_of st g) ≤ group_person_upper_limit st) →
     ∀ g, group_size (group_of st' g) ≤ group_person_upper_limit st)
  ∧ (touched_externals st (assigned_groups st)
       ≤ max_group_external_touch_upper_limit st →
     touched_externals st (assigned_groups st')
       ≤ max_group_external_touch_upper_limit st)
  ∧ (no_conflict st (assigned_groups st) →
     no_conflict st (assigned_groups st')).
Proof.
  intros Hrun. unfold assign_externals in Hrun. split_and!.
  - refine (run_phase_keeps
              (λ t, ∀ g, external_count (t !!! g) ≤ group_external_upper_limit st)
              _ _ _ _ _ _ _ Hrun).
    + intros t1 t2 H H1 g. rewrite <- (H g). apply H1.
    + intros person g t _ _ (_ & Hlt & _)%externals_accepts H1 g'.
      rewrite table_append_total. case_decide; [|apply H1].
      rewrite external_count_snoc. destruct (is_external person); lia.
  - refine (run_phase_keeps
              (λ t, ∀ g, group_size (t !!! g) ≤ group_person_upper_limit st)
              _ _ _ _ _ _ _ Hrun).
    + intros t1 t2 H H1 g. rewrite <- (H g). apply H1.
    + intros person g t _ _ (_ & _ & Hlt & _)%externals_accepts H1 g'.
      rewrite table_append_total. case_decide; [|apply H1].
      rewrite group_size_snoc. lia.
  - refine (run_phase_keeps
              (λ t, touched_externals st t
                    ≤ max_group_external_touch_upper_limit st)
              _ _ _ _ _ _ _ Hrun).
    + intros t1 t2 H. unfold touched_externals.
      by rewrite (list_filter_iff _
           (λ g, group_external_upper_limit st ≤ external_count (t2 !!! g)))
        by (intros g; by rewrite (H g)).
    + intros person g t _ Hg (_ & Hlt & _ & Hq)%externals_accepts H1.
      unfold touched_externals in *.
      rewrite (touched_count_append external_count) by apply NoDup_seq.
      rewrite decide_True by done. rewrite external_count_snoc.
      unfold indicator. repeat case_decide; destruct (is_external person); lia.
  - refine (run_phase_keeps (no_conflict st) _ _ _ _ _ _ _ Hrun).
    + apply no_conflict_equiv.
    + intros person g t _ _ (Hok & _)%externals_accepts.
      by apply no_conflict_append.
Qed.

(** X12: whether it succeeds or fails, the external phase keeps each of
    these when it holds before the call: every group's external count is
    at most the external ceiling; every group's size is at most the upper
    limit; the number of groups at the external ceiling is at most the
    external touch quota; nobody is from a province their group excludes. *)
Theorem assign_externals_keeps_ceilings (st : State) (ok : bool)
    (st' : State) :
  assign_externals st = Some (ok, st') →
  ((∀ g, external_count (group_of st g) ≤ group_external_upper_limit st) →
   ∀ g, external_count (group_of st' g) ≤ group_external_upper_limit st)
  ∧ ((∀ g, group_size (group_of st g) ≤ group_person_upper_limit st) →
     ∀ g, group_size (group_of st' g) ≤ group_person_upper_limit st)
  ∧ (touched_externals st (assigned_groups st)
       ≤ max_group_external_touch_upper_limit st →
     touched_externals st (assigned_groups st')
       ≤ max_group_external_touch_upper_limit st)
  ∧ (no_conflict st (assigned_groups st) →
     no_conflict st (assigned_groups st')).
Proof. apply externals_phase_keeps. Qed.

Lemma members_phase_keeps (st : State) (ok : bool)
    (st' : State) :
  assign_members st = Some (ok, st') →
  ((∀ g, group_size (group_of st g) ≤ group_person_upper_limit st) →
   ∀ g, group_size (group_of st' g) ≤ group_person_upper_limit st)
  ∧ (touched_sizes st (assigned_groups st)
       ≤ max_group_member_touch_upper_limit st →
     touched_sizes st (assigned_groups st')
       ≤ max_group_member_touch_upper_limit st)
  ∧ (no_conflict st (assigned_groups st) →
     no_conflict st (assigned_groups st'))
  ∧ (Forall (λ p, is_external p = false) (group_members_no_external st) →
     ∀ g, external_count (group_of st' g) = external_count (group_of st g)).
Proof.
  intros Hrun. unfold assign_members in Hrun. split_and!.
  - refine (run_phase_keeps
              (λ t, ∀ g, group_size (t !!! g) ≤ group_person_upper_limit st)
              _ _ _ _ _ _ _ Hrun).
    + intros t1 t2 H H1 g. rewrite <- (H g). apply H1.
    + intros person g t _ _ (_ & Hlt & _)%members_accepts H1 g'.
      rewrite table_append_total. case_decide; [|apply H1].
      rewrite group_size_snoc. lia.
  - refine (run_phase_keeps
              (λ t, touched_sizes st t ≤ max_group_member_touch_upper_limit st)
              _ _ _ _ _ _ _ Hrun).
    + intros t1 t2 H. unfold touched_sizes.
      by rewrite (list_filter_iff _
           (λ g, group_person_upper_limit st ≤ group_size (t2 !!! g)))
        by (intros g; by rewrite (H g)).
    + intros person g t _ Hg (_ & Hlt & Hq)%members_accepts H1.
      unfold touched_sizes in *.
      rewrite (touched_count_append group_size) by apply NoDup_seq.
      rewrite decide_True by done. rewrite group_size_snoc.
      unfold indicator. repeat case_decide; lia.
  - refine (run_phase_keeps (no_conflict st) _ _ _ _ _ _ _ Hrun).
    + apply no_conflict_equiv.
    + intros person g t _ _ (Hok & _)%members_accepts.
      by apply no_conflict_append.
  - intros Hall g. unfold group_of.
    refine (run_phase_keeps
              (λ t, external_count (t !!! g)
                    = external_count (assigned_groups st !!! g))
              _ _ _ _ _ _ _ Hrun _); [| |done].
    + intros t1 t2 H. by rewrite (H g).
    + intros person g' t Hin _ _ H1. rewrite table_append_total.
      case_decide; [|done]. subst g'. rewrite external_count_snoc.
      rewrite Forall_forall in Hall. rewrite (Hall _ Hin). lia.
Qed.

(** X13: whether it succeeds or fails, the member phase keeps each of
    these when it holds before the call: every group's size is at most the
    upper limit; the number of groups at the upper limit is at most the
    member touch quota; nobody is from a province their group excludes.
    When nobody of its list is external it leaves the external count of
    every group as it was. *)
Theorem assign_members_keeps_ceilings (st : State) (ok : bool)
    (st' : State) :
  assign_members st = Some (ok, st') →
  ((∀ g, group_size (group_of st g) ≤ group_person_upper_limit st) →
   ∀ g, group_size (group_of st' g) ≤ group_person_upper_limit st)
  ∧ (touched_sizes st (assigned_groups st)
       ≤ max_group_member_touch_upper_limit st →
     touched_sizes st (assigned_groups st')
       ≤ max_group_member_touch_upper_limit st)
  ∧ (no_conflict st (assigned_groups st) →
     no_conflict st (assigned_groups st'))
  ∧ (Forall (λ p, is_external p = false) (group_members_no_external st) →
     ∀ g, external_count (group_of st' g) = external_count (group_of st g)).
Proof. apply members_phase_keeps. Qed.

End PhaseClaims.

Lemma assign_externals_keeps_ceilings_witness :
  ∃ ok st',
    assign_externals Sample.parsed = Some (ok, st')
    ∧ ∀ g, external_count (group_of st' g)
           ≤ group_external_upper_limit Sample.parsed.
Proof.
  destruct (assign_externals Sample.parsed) as [[ok st']|] eqn:E;
    [|vm_compute in E; discriminate E].
  exists ok, st'. split; [done|].
  apply (proj1 (assign_externals_keeps_ceilings _ _ _ E)).
  intros g. unfold group_of. cbn. by rewrite lookup_total_empty.
Defined.

Lemma assign_members_keeps_ceilings_witness :
  ∃ st',
    assign_members MoreSamples.member_waiting = Some (true, st')
    ∧ group_of st' 0 = [Sample.L1; Sample.A; MoreSamples.W]
    ∧ ∀ g, group_size (group_of st' g)
           ≤ group_person_upper_limit MoreSamples.member_waiting.
Proof.
  destruct (assign_members MoreSamples.member_waiting) as [[[|] st']|] eqn:E;
    [|vm_compute in E; discriminate E..].
  exists st'. split; [done|]. split.
  - pose proof E as E'. vm_compute in E'. injection E' as <-. by vm_compute.
  - apply (proj1 (assign_members_keeps_ceilings _ _ _ E)).
    intros g. unfold group_of. cbn.
    destruct (decide (g = 0%nat)) as [->|Hne0]; [by vm_compute|].
    rewrite lookup_total_insert_ne by done.
    destruct (decide (g = 1%nat)) as [->|Hne1]; [by vm_compute|].
    rewrite lookup_total_insert_ne by done. by rewrite lookup_total_empty.
Defined.

(** ** What a run builds *)

Section PipelineMore.

Context {rt : Runtime} `{!RuntimeLaws rt}.

Lemma external_count_elem person group :
  person ∈ group → is_external person = true → 1 ≤ external_count group.
Proof.
  intros Hin Hext. induction group as [|p l IH]; [by apply elem_of_nil in Hin|].
  rewrite external_count_cons. pose proof (external_count_nonneg l).
  apply elem_of_cons in Hin as [<-|Hin]; [rewrite Hext; lia|].
  specialize (IH Hin). destruct (is_external p); lia.
Qed.

Lemma external_count_perm l1 l2 :
  l1 ≡ₚ l2 → external_count l1 = external_count l2.
Proof. intros H. unfold external_count. by rewrite H. Qed.

Lemma run_started st text st0 seed st1 :
  parse_input st text = Some st0 → init (shuffle seed st0) = Some st1 →
  started st0 st1.
Proof.
  intros Hparse Hinit. pose proof Hparse as Hparse'.
  pose proof (parse_input_post _ _ _ Hparse) as (Htab & HM & Hnl & Hng & HE).
  apply parse_input_inv in Hparse
    as (m & n & leaders & e1 & members & e2 & _ & _ & _ & Hm & _ & _ & Hst0).
  apply read_people_spec in Hm as (newm & Hnewm & Hlm & _).
  rewrite app_nil_l in Hnewm. rewrite length_range in Hlm.
  destruct (parse_input_bounds _ _ _ Hparse') as (HMb & HTb & _ & HEb).
  apply init_inv in Hinit as (HM0 & upper & eu & Hu & He & ->).
  cbn in HM0, Hu, He.
  assert (2 ^ 53 = 2 * 2 ^ 52) as E53 by done.
  destruct (ceil_div_exact (external_num st0) (M st0)) as (eu' & He' & Hce);
    [lia | lia|].
  assert (eu' = eu) as -> by congruence.
  pose proof (random_shuffle_perm Person (random_seed seed) (group_leaders st0))
    as Hpl.
  pose proof (random_shuffle_perm Person
                (random_shuffle Person (random_seed seed) (group_leaders st0)).2
                (group_members st0)) as Hpm.
  split; cbn; try done.
  - lia.
  - intros g. rewrite Htab. apply table_empty_total.
  - by rewrite (Permutation_length Hpl).
  - subst st0. cbn. rewrite Hnewm, Hlm. f_equal. lia.
  - by rewrite (external_count_perm _ _ Hpl), (external_count_perm _ _ Hpm).
  - intros HN0.
    destruct (ceil_div_exact (M st0 + N st0) (M st0)) as (up' & Hu' & Hcu);
      [lia | lia|].
    by assert (up' = upper) as -> by congruence.
Qed.

(** The three phases change the table only. *)
Lemma phases_inv st1 s2 s3 st' :
  assign_leaders st1 = Some (true, s2) →
  assign_externals s2 = Some (true, s3) →
  assign_members s3 = Some (true, st') →
  ∃ t2 t3 t4,
    s2 = set_assigned_groups st1 t2 ∧ s3 = set_assigned_groups st1 t3
    ∧ st' = set_assigned_groups st1 t4.
Proof.
  intros (t2 & _ & ->)%run_phase_inv (t3 & _ & ->)%run_phase_inv
    (t4 & _ & ->)%run_phase_inv. by exists t2, t3, t4.
Qed.

(** What three successful phases of a run have built. *)
Lemma phases_build st0 st1 s2 s3 st' :
  started st0 st1 →
  assign_leaders st1 = Some (true, s2) →
  assign_externals s2 = Some (true, s3) →
  assign_members s3 = Some (true, st') →
  (∀ g, g ∈ group_ids (M st0) →
        ∃ leader rest,
          group_of st' g = leader :: rest ∧ leader ∈ group_leaders st0)
  ∧ (∀ g, g ∉ group_ids (M st0) → group_of st' g = [])
  ∧ all_placed (M st0) (assigned_groups st')
    ≡ₚ group_leaders st0 ++ group_members st0
  ∧ (∀ g, external_count (group_of st' g) ≤ group_external_upper_limit st')
  ∧ no_conflict st' (assigned_groups st')
  ∧ (0 ≤ N st0 →
     ∀ g, group_size (group_of st' g) ≤ group_person_upper_limit st').
Proof.
  intros Hs Hl He Hm.
  destruct (phases_inv _ _ _ _ Hl He Hm) as (t2 & t3 & t4 & -> & -> & ->).
  destruct Hs as [HM HN HMpos Htab Hpl Hpm Hnl Hnm Hng HE Hsx Hsn Hup Hlo Hce].
  pose proof (assign_leaders_one_each st1 _ Htab Hnl Hl) as Hone.
  pose proof (assign_leaders_places st1 _ Htab Hl) as (Hle1 & Hall2 & Hnc2).
  cbn in Hle1, Hall2, Hnc2, Hone. unfold group_of in Hle1, Hone. cbn in Hle1, Hone.
  pose proof (run_phase_places _ _ _ _ He) as Hall3.
  pose proof (run_phase_places _ _ _ _ Hm) as Hall4.
  pose proof (externals_phase_keeps _ _ _ He) as (Hx1 & Hx2 & _ & Hx4).
  pose proof (members_phase_keeps _ _ _ Hm) as (Hm1 & _ & Hm3 & Hm4).
  unfold group_of in *. cbn in *.
  (* outside the range nothing is placed *)
  assert (∀ g, g ∉ group_ids (M st1) → t2 !!! g = []) as Hout2.
  { intros g Hg.
    unfold assign_leaders in Hl.
    refine (run_phase_keeps (λ t, t !!! g = []) _ _ _ _ _ _ _ Hl _);
      [| |apply Htab].
    - intros t1' t2' H. by rewrite (H g).
    - intros person g' t _ Hg' _ H1. rewrite table_append_total.
      case_decide; [by subst | done]. }
  assert (∀ g, t2 !!! g `prefix_of` t3 !!! g) as Hpre3.
  { intros g. unfold assign_externals in He.
    refine (run_phase_keeps (λ t, t2 !!! g `prefix_of` t !!! g)
              _ _ _ _ _ _ _ He _); [| |done].
    - intros t1' t2' H. by rewrite (H g).
    - intros person g' t _ _ _ H1. rewrite table_append_total.
      case_decide; [subst; by apply prefix_app_r | done]. }
  assert (∀ g, t3 !!! g `prefix_of` t4 !!! g) as Hpre4.
  { intros g. unfold assign_members in Hm.
    refine (run_phase_keeps (λ t, t3 !!! g `prefix_of` t !!! g)
              _ _ _ _ _ _ _ Hm _); [| |done].
    - intros t1' t2' H. by rewrite (H g).
    - intros person g' t _ _ _ H1. rewrite table_append_total.
      case_decide; [subst; by apply prefix_app_r | done]. }
  assert (∀ g, g ∉ group_ids (M st1) → t4 !!! g = []) as Hout4.
  { intros g Hg.
    assert (t3 !!! g = []) as H3.
    { unfold assign_externals in He.
      refine (run_phase_keeps (λ t, t !!! g = []) _ _ _ _ _ _ _ He _);
        [| |by apply Hout2].
      - intros t1' t2' H. by rewrite (H g).
      - intros person g' t _ Hg' _ H1. rewrite table_append_total.
        case_decide; [by subst | done]. }
    unfold assign_members in Hm.
    refine (run_phase_keeps (λ t, t !!! g = []) _ _ _ _ _ _ _ Hm _);
      [| |done].
    - intros t1' t2' H. by rewrite (H g).
    - intros person g' t _ Hg' _ H1. rewrite table_append_total.
      case_decide; [by subst | done]. }
  rewrite <- HM. split_and!.
  - intros g Hg. destruct (Hone g Hg) as (leader & excl & Hg2 & Hin & _).
    destruct (Hpre3 g) as [k3 Hk3]. destruct (Hpre4 g) as [k4 Hk4].
    exists leader, (k3 ++ k4). rewrite Hk4, Hk3, Hg2. split; [done|].
    by rewrite <- Hpl.
  - done.
  - rewrite Hall4, Hall3, Hall2, <- (assoc_L app), Hsx, Hsn.
    rewrite <- Hpl, <- Hpm. f_equiv.
    rewrite <- (filter_app_complement (λ mem, is_external mem = true)
                  (group_members st1)) at 3.
    assert (filter (λ mem, is_external mem = false) (group_members st1)
            = filter (λ mem, ¬ is_external mem = true) (group_members st1))
      as ->; [|done].
    apply list_filter_iff. intros p. destruct (is_external p); split; congruence.
  - intros g. rewrite Hm4.
    2: { rewrite Hsn. apply Forall_forall. by intros p [? _]%list_elem_of_filter. }
    apply Hx1. intros g'.
    pose proof (external_count_nonneg (group_leaders st1)).
    pose proof (external_count_nonneg (group_members st1)).
    destruct Hce as [Hc1 Hc2].
    destruct (decide (g' ∈ group_ids (M st1))) as [Hin|Hnin].
    + destruct (Hone g' Hin) as (leader & excl & -> & Hlin & _).
      rewrite external_count_cons. assert (external_count [] = 0) as -> by done.
      destruct (is_external leader) eqn:Hext; [|nia].
      pose proof (external_count_elem _ _ Hlin Hext). nia.
    + rewrite (Hout2 g' Hnin). assert (external_count [] = 0) as -> by done. nia.
  - by apply Hm3, Hx4.
  - intros HN0 g. apply Hm1, Hx2. intros g'.
    destruct (Hup ltac:(lia)) as [Hc1 Hc2].
    specialize (Hle1 g'). unfold group_size. nia.
Qed.

End PipelineMore.

Section RunMore.

Context {rt : Runtime}.

Lemma run_outcome st seed text st0 out st' :
  parse_input st text = Some st0 → run st seed text = Some (out, st') →
  ∃ st1, init (shuffle seed st0) = Some st1 ∧ 1 ≤ M st0
         ∧ outcome st1 out st'.
Proof.
  intros Hparse Hrun. rewrite (run_inv _ _ _ _ Hparse) in Hrun.
  destruct (init (shuffle seed st0)) as [st1|] eqn:Hinit; [|done].
  cbn in Hrun. exists st1.
  pose proof (parse_input_post _ _ _ Hparse) as (_ & HM & _ & Hlen & _).
  pose proof (init_inv _ _ Hinit) as (HM0 & upper & eu & _ & _ & Hst1).
  cbn in HM0.
  destruct (run_phases_outcome st1) as (out2 & st2 & Hrun2 & Hout).
  { subst st1. cbn. done. }
  rewrite Hrun in Hrun2. injection Hrun2 as <- <-.
  split_and!; [done | lia | done].
Qed.

(** An outcome that is no phase failure has gone through the phases. *)
Lemma outcome_phases st1 out st' :
  outcome st1 out st' → out ∉ phase_failures →
  ∃ s2 s3,
    assign_leaders st1 = Some (true, s2)
    ∧ assign_externals s2 = Some (true, s3)
    ∧ assign_members s3 = Some (true, st')
    ∧ ((out = msg_check_failed ∧ check st' = Some false)
       ∨ (check st' = Some true ∧ format_output st' = Some out)).
Proof.
  unfold phase_failures.
  intros [| | |s2 s3 st'' Hl He Hm Hc|s2 s3 st'' res Hl He Hm Hc Hf] Hnot.
  - exfalso. apply Hnot. left.
  - exfalso. apply Hnot. right; left.
  - exfalso. apply Hnot. do 2 right; left.
  - exists s2, s3. split_and!; try done. by left.
  - exists s2, s3. split_and!; try done. by right.
Qed.

(** X17: [run] returns a string exactly for the texts that [parse_input]
    accepts with a group count of at least one; on every other text it
    raises. *)
Theorem run_returns_iff (st : State) (seed : Z) (text : string) :
  is_Some (run st seed text)
  ↔ ∃ st0, parse_input st text = Some st0 ∧ 1 ≤ M st0.
Proof.
  split.
  - intros [[out st'] Hrun].
    destruct (parse_input st text) as [st0|] eqn:Hparse.
    + exists st0. split; [done|].
      by destruct (run_outcome _ _ _ _ _ _ Hparse Hrun) as (_ & _ & ? & _).
    + unfold run in Hrun. by rewrite Hparse in Hrun.
  - intros (st0 & Hparse & HM). rewrite (run_inv _ _ _ _ Hparse).
    pose proof (parse_input_post _ _ _ Hparse) as (_ & _ & _ & Hlen & _).
    destruct (init_after_parse _ seed _ _ Hparse HM) as [st1 Hinit].
    rewrite Hinit.
    pose proof (init_inv _ _ Hinit) as (_ & upper & eu & _ & _ & Hst1).
    destruct (run_phases_outcome st1) as (out & st' & Hrun & _).
    { subst st1. cbn. done. }
    cbn. rewrite Hrun. by eexists.
Qed.

Context `{!RuntimeLaws rt}.

(** X14: when [run] gets through the three phases (it returns the table
    or the validation failure), every group of [range(M)] starts with a
    leader, the groups outside hold nobody, and the people in the groups
    are the leaders and members of the text, each once. *)
Theorem run_places_everyone_leader_first (st : State) (seed : Z)
    (text : string) (st0 : State) (out : string) (st' : State) :
  parse_input st text = Some st0 →
  run st seed text = Some (out, st') →
  out ∉ phase_failures →
  (∀ g, g ∈ group_ids (M st0) →
        ∃ leader rest,
          group_of st' g = leader :: rest ∧ leader ∈ group_leaders st0)
  ∧ (∀ g, g ∉ group_ids (M st0) → group_of st' g = [])
  ∧ all_placed (M st0) (assigned_groups st')
    ≡ₚ group_leaders st0 ++ group_members st0.
Proof.
  intros Hparse Hrun Hnot.
  destruct (run_outcome _ _ _ _ _ _ Hparse Hrun) as (st1 & Hinit & _ & Hout).
  destruct (outcome_phases _ _ _ Hout Hnot) as (s2 & s3 & Hl & He & Hm & _).
  pose proof (run_started _ _ _ _ _ Hparse Hinit) as Hs.
  destruct (phases_build _ _ _ _ _ Hs Hl He Hm) as (H1 & H2 & H3 & _).
  done.
Qed.

(** X15: every table [run] returns meets the whole invariant of the
    specification: what [check] tests and, beyond it, the ceiling on the
    external count of every group. *)
Theorem run_table_meets_invariant (st : State) (seed : Z)
    (text : string) (st0 : State) (out : string) (st' : State) :
  parse_input st text = Some st0 →
  run st seed text = Some (out, st') →
  out ∉ failure_messages →
  specified_invariant st' ∧ format_output st' = Some out.
Proof.
  intros Hparse Hrun Hnot.
  destruct (run_outcome _ _ _ _ _ _ Hparse Hrun) as (st1 & Hinit & _ & Hout).
  assert (out ∉ phase_failures) as Hnot'.
  { intros Hin. apply Hnot. unfold phase_failures, failure_messages in *.
    rewrite !elem_of_cons in Hin. rewrite !elem_of_cons.
    destruct Hin as [?|[?|[?|?%elem_of_nil]]]; tauto. }
  destruct (outcome_phases _ _ _ Hout Hnot')
    as (s2 & s3 & Hl & He & Hm & [[-> _]|[Hc Hf]]).
  { exfalso. apply Hnot. unfold failure_messages. do 3 right. left. }
  pose proof (run_started _ _ _ _ _ Hparse Hinit) as Hs.
  destruct (phases_build _ _ _ _ _ Hs Hl He Hm) as (_ & _ & _ & H4 & _).
  split; [|done]. split; [by apply check_true_iff|]. intros g _. apply H4.
Qed.

(** X16: when [run] on a text with N ≥ 0 returns the validation failure,
    some group is below the lower size limit or holds no external: the
    upper limit, the province exclusions, the spread and the head count
    are never the cause. *)
Theorem validation_failure_cause (st : State) (seed : Z) (text : string)
    (st0 st' : State) :
  parse_input st text = Some st0 → 0 ≤ N st0 →
  run st seed text = Some (msg_check_failed, st') →
  ∃ g, g ∈ group_ids (M st')
       ∧ (group_size (group_of st' g) < group_person_lower_limit st'
          ∨ external_count (group_of st' g) < 1).
Proof.
  intros Hparse HN0 Hrun.
  destruct (run_outcome _ _ _ _ _ _ Hparse Hrun) as (st1 & Hinit & HM1 & Hout).
  assert (msg_check_failed ∉ phase_failures) as Hnot.
  { unfold phase_failures. rewrite !elem_of_cons, elem_of_nil.
    intros [H|[H|[H|[]]]]; discriminate H. }
  destruct (outcome_phases _ _ _ Hout Hnot)
    as (s2 & s3 & Hl & He & Hm & [[_ Hc]|[_ Hf]]).
  2: { apply format_output_prefix in Hf as [rest Hr]; [discriminate Hr|].
       destruct (phases_inv _ _ _ _ Hl He Hm) as (? & ? & ? & _ & _ & ->).
       apply init_inv in Hinit as (_ & upper & eu & _ & _ & ->). cbn. lia. }
  pose proof (run_started _ _ _ _ _ Hparse Hinit) as Hs.
  destruct (phases_build _ _ _ _ _ Hs Hl He Hm)
    as (_ & _ & Hall & _ & Hnc & Hup). specialize (Hup HN0).
  destruct (phases_inv _ _ _ _ Hl He Hm) as (t2 & t3 & t4 & _ & _ & ->).
  destruct Hs as [HM HN _ _ Hpl Hpm Hnl Hnm _ _ _ _ Hupper Hlower _].
  unfold group_of in *. cbn in *.
  set (P := λ g, group_person_lower_limit st1 ≤ group_size (t4 !!! g)
                 ∧ 1 ≤ external_count (t4 !!! g)).
  destruct (decide (Forall P (group_ids (M st1)))) as [Hall'|Hex].
  - exfalso.
    assert (check (set_assigned_groups st1 t4) = Some true) as Hc';
      [|congruence].
    apply check_true_iff. rewrite Forall_forall in Hall'.
    pose proof (quota_identity (M st1 + N st1) (M st1) _ ltac:(lia)
                  (Hupper ltac:(lia)))
      as (_ & _ & _ & Hdiv). cbn zeta in Hdiv.
    rewrite <- Hlower in Hdiv.
    assert (group_person_upper_limit st1 ≤ group_person_lower_limit st1 + 1)
      as Hgap by (case_bool_decide; lia).
    split; unfold group_of; cbn.
    + intros g Hg. split; [apply (Hall' g Hg) | apply Hup].
    + intros g g' Hg Hg'. specialize (Hup g).
      destruct (Hall' g' Hg') as [? _]. lia.
    + intros g Hg. apply (Hall' g Hg).
    + intros g person _ Hin. by apply Hnc.
    + unfold total_placed. cbn. rewrite <- length_all_placed.
      rewrite HM, (Permutation_length Hall), length_app.
      rewrite <- (Permutation_length Hpl), Hnl, Hnm. lia.
  - apply not_Forall_Exists in Hex; [|intros g; unfold P; apply _].
    apply Exists_exists in Hex as (g & Hg & HnP). exists g. split; [done|].
    unfold P in HnP. cbn in HnP. lia.
Qed.

End RunMore.

(** ** When the validator and the formatter return *)

Section ValidatorMore.

Lemma check_people_raise excl group total ext :
  check_people excl group total ext = Py.Raise → excl = None ∧ group ≠ [].
Proof.
  destruct excl as [provinces|].
  - intros H. by apply check_people_no_raise in H.
  - by destruct group.
Qed.

Lemma check_groups_raise st gids : ∀ total lo hi,
  check_groups st gids total lo hi = Py.Raise →
  ∃ g, g ∈ gids ∧ groups st !! g = None ∧ group_of st g ≠ [].
Proof.
  induction gids as [|g gids IH]; intros total lo hi; [done|].
  cbn [check_groups]. repeat (case_bool_decide; [done|]).
  destruct (check_people _ _ _ _) as [|b|[total' ext]] eqn:Hp; [|done|].
  - intros _. apply check_people_raise in Hp as [Hnone Hne].
    exists g. split_and!; [left | done | done].
  - case_bool_decide; [done|]. intros (g' & ? & ?)%IH.
    exists g'. split; [by right | done].
Qed.

(** X19: [check] raises only when some non-empty group of [range(M)] has
    no exclusion list; with an exclusion list for every group it returns
    a verdict. *)
Theorem check_raises_only_without_list (st : State) :
  (check st = None →
   ∃ g, g ∈ group_ids (M st) ∧ groups st !! g = None ∧ group_of st g ≠ [])
  ∧ ((Z.to_nat (M st) ≤ length (groups st))%nat → is_Some (check st)).
Proof.
  assert (check st = None →
          ∃ g, g ∈ group_ids (M st) ∧ groups st !! g = None
               ∧ group_of st g ≠ []) as Hraise.
  { unfold check.
    destruct (check_groups _ _ _ _ _) as [|b|[[total lo] hi]] eqn:Hg.
    - intros _. by apply check_groups_raise in Hg.
    - done.
    - repeat case_match; done. }
  split; [done|]. intros Hlen.
  destruct (check st) as [b|] eqn:Hc; [by eexists|].
  destruct (Hraise eq_refl) as (g & Hg%elem_of_seq & Hnone & _).
  apply lookup_ge_None in Hnone. lia.
Qed.

(** X18: [format_output] returns exactly when no group of [range(M)] is
    empty, and so on every table [check] accepts; without any group it
    returns the empty string. *)
Theorem format_output_returns_iff (st : State) :
  (is_Some (format_output st)
   ↔ ∀ g, g ∈ group_ids (M st) → group_of st g ≠ [])
  ∧ (check st = Some true → is_Some (format_output st))
  ∧ (M st ≤ 0 → format_output st = Some EmptyString).
Proof.
  split_and!.
  - split; [|apply format_output_total].
    unfold format_output. intros [res Hres] g Hg.
    destruct (mapM _ _) as [output|] eqn:Hm; [|done].
    assert (is_Some (mapM (λ i, format_group i (assigned_groups st !!! i))
                       (group_ids (M st)))) as Hs by (by eexists).
    apply mapM_is_Some_1 in Hs. rewrite Forall_forall in Hs.
    specialize (Hs g Hg) as [line Hline]. cbn in Hline.
    unfold group_of. by destruct (assigned_groups st !!! g).
  - intros Hc%check_true_iff. apply format_output_total.
    intros g Hg. apply external_count_pos_nonempty.
    by apply (accepted_external st Hc).
  - intros HM. unfold format_output, group_ids.
    by replace (Z.to_nat (M st)) with 0%nat by lia.
Qed.

End ValidatorMore.

(** ** What a failed phase leaves *)

Section FailedPhases.

Context {rt : Runtime} `{!RuntimeLaws rt}.

(** X20: a failed phase leaves the placements of the phases before it and
    nothing of its own: after the external failure every group of
    [range(M)] holds its leader and nobody else; after the member failure
    the groups hold the leaders and the external members, each once. *)
Theorem failed_phase_leaves_earlier_placements (st : State) (seed : Z)
    (text : string) (st0 : State) (out : string) (st' : State) :
  parse_input st text = Some st0 →
  run st seed text = Some (out, st') →
  (out = msg_externals_failed →
   ∀ g, g ∈ group_ids (M st0) →
     ∃ leader, group_of st' g = [leader] ∧ leader ∈ group_leaders st0)
  ∧ (out = msg_members_failed →
     all_placed (M st0) (assigned_groups st')
     ≡ₚ group_leaders st0
        ++ filter (λ mem, is_external mem = true) (group_members st0)).
Proof.
  intros Hparse Hrun.
  destruct (run_outcome _ _ _ _ _ _ Hparse Hrun) as (st1 & Hinit & HM1 & Hout).
  pose proof (run_started _ _ _ _ _ Hparse Hinit) as Hs.
  destruct Hs as [HM HN _ Htab Hpl Hpm Hnl _ _ _ Hsx _ _ _ _].
  assert (∀ rest, "第" +:+ rest ≠ msg_externals_failed
                  ∧ "第" +:+ rest ≠ msg_members_failed) as Hpre
    by (intros rest; split; intros H; discriminate H).
  assert (∀ s2 s3 s4 res,
            assign_leaders st1 = Some (true, s2) →
            assign_externals s2 = Some (true, s3) →
            assign_members s3 = Some (true, s4) →
            format_output s4 = Some res →
            res ≠ msg_externals_failed ∧ res ≠ msg_members_failed) as Htable.
  { intros s2 s3 s4 res Hl He Hm Hf.
    apply format_output_prefix in Hf as [rest ->]; [apply Hpre|].
    destruct (phases_inv _ _ _ _ Hl He Hm) as (? & ? & ? & _ & _ & ->).
    cbn. lia. }
  split.
  - intros -> g Hg.
    inversion Hout as [|s2 st'' Hl He| | |s2 s3 st'' res Hl He Hm Hc Hf]; subst.
    + pose proof (assign_leaders_one_each st1 _ Htab Hnl Hl) as Hone.
      rewrite <- HM in Hg.
      destruct (Hone g Hg) as (leader & excl & Hg2 & Hin & _).
      exists leader. unfold group_of in *.
      rewrite (run_phase_failed _ _ _ _ He g). split; [done|].
      by rewrite <- Hpl.
    + by destruct (Htable _ _ _ _ Hl He Hm Hf).
  - intros ->.
    inversion Hout as [| |s2 s3 st'' Hl He Hm| |s2 s3 st'' res Hl He Hm Hc Hf];
      subst.
    + pose proof (assign_leaders_places st1 _ Htab Hl) as (_ & Hall2 & _).
      pose proof (run_phase_places _ _ _ _ He) as Hall3.
      apply run_phase_inv in Hl as (t2 & _ & ->).
      apply run_phase_inv in He as (t3 & _ & [= ->]).
      cbn in Hall2, Hall3.
      rewrite (all_placed_equiv _ _ _ (run_phase_failed _ _ _ _ Hm)).
      cbn. rewrite <- HM, Hall3, Hall2, Hsx. by rewrite Hpl, Hpm.
    + by destruct (Htable _ _ _ _ Hl He Hm Hf).
Qed.

End FailedPhases.

(** ** The rest of the pipeline on the reference runtime *)

Lemma run_places_everyone_leader_first_witness :
  ∃ st0 out st',
    parse_input (rt := RefRuntime.runtime) initial Sample.scenario_text
    = Some st0
    ∧ run (rt := RefRuntime.runtime) initial 0 Sample.scenario_text
      = Some (out, st')
    ∧ (out ∉ phase_failures)
    ∧ all_placed (M st0) (assigned_groups st')
      ≡ₚ group_leaders st0 ++ group_members st0.
Proof.
  destruct (parse_input (rt := RefRuntime.runtime) initial
              Sample.scenario_text) as [st0|] eqn:E0;
    [|vm_compute in E0; discriminate E0].
  destruct (run (rt := RefRuntime.runtime) initial 0 Sample.scenario_text)
    as [[out st']|] eqn:E1; [|vm_compute in E1; discriminate E1].
  assert (out ∉ phase_failures) as Hnot.
  { vm_compute in E1. injection E1 as <- <-. unfold phase_failures.
    rewrite !elem_of_cons, elem_of_nil. intros [H|[H|[H|[]]]]; discriminate H. }
  exists st0, out, st'. split_and!; [done | done | done |].
  exact (proj2 (proj2
    (run_places_everyone_leader_first (rt := RefRuntime.runtime)
       _ _ _ _ _ _ E0 E1 Hnot))).
Defined.

Lemma run_table_meets_invariant_witness :
  ∃ st0 out st',
    parse_input (rt := RefRuntime.runtime) initial Sample.scenario_text
    = Some st0
    ∧ run (rt := RefRuntime.runtime) initial 0 Sample.scenario_text
      = Some (out, st')
    ∧ (out ∉ failure_messages)
    ∧ specified_invariant st'.
Proof.
  destruct (parse_input (rt := RefRuntime.runtime) initial
              Sample.scenario_text) as [st0|] eqn:E0;
    [|vm_compute in E0; discriminate E0].
  destruct (run (rt := RefRuntime.runtime) initial 0 Sample.scenario_text)
    as [[out st']|] eqn:E1; [|vm_compute in E1; discriminate E1].
  assert (out ∉ failure_messages) as Hnot.
  { vm_compute in E1. injection E1 as <- <-. unfold failure_messages.
    rewrite !elem_of_cons, elem_of_nil.
    intros [H|[H|[H|[H|[]]]]]; discriminate H. }
  exists st0, out, st'. split_and!; [done | done | done |].
  exact (proj1 (run_table_meets_invariant (rt := RefRuntime.runtime)
                  _ _ _ _ _ _ E0 E1 Hnot)).
Defined.

Lemma validation_failure_cause_witness :
  ∃ st0 st',
    parse_input (rt := RefRuntime.runtime) initial Sample.no_external_text
    = Some st0
    ∧ 0 ≤ N st0
    ∧ run (rt := RefRuntime.runtime) initial 0 Sample.no_external_text
      = Some (msg_check_failed, st')
    ∧ ∃ g, g ∈ group_ids (M st')
           ∧ (group_size (group_of st' g) < group_person_lower_limit st'
              ∨ external_count (group_of st' g) < 1).
Proof.
  destruct (parse_input (rt := RefRuntime.runtime) initial
              Sample.no_external_text) as [st0|] eqn:E0;
    [|vm_compute in E0; discriminate E0].
  assert (0 ≤ N st0) as HN.
  { vm_compute in E0. injection E0 as <-. vm_compute. discriminate. }
  destruct (run (rt := RefRuntime.runtime) initial 0 Sample.no_external_text)
    as [[out st']|] eqn:E1; [|vm_compute in E1; discriminate E1].
  assert (out = msg_check_failed) as ->.
  { vm_compute in E1. by injection E1 as <- <-. }
  exists st0, st'. split_and!; [done | done | done |].
  exact (validation_failure_cause (rt := RefRuntime.runtime)
           _ _ _ _ _ E0 HN E1).
Defined.

Lemma failed_phase_leaves_earlier_placements_witness :
  ∃ st0 st',
    parse_input (rt := RefRuntime.runtime) initial MoreSamples.blocked_text
    = Some st0
    ∧ run (rt := RefRuntime.runtime) initial 0 MoreSamples.blocked_text
      = Some (msg_externals_failed, st')
    ∧ ∀ g, g ∈ group_ids (M st0) →
        ∃ leader, group_of st' g = [leader] ∧ leader ∈ group_leaders st0.
Proof.
  destruct (parse_input (rt := RefRuntime.runtime) initial
              MoreSamples.blocked_text) as [st0|] eqn:E0;
    [|vm_compute in E0; discriminate E0].
  destruct (run (rt := RefRuntime.runtime) initial 0 MoreSamples.blocked_text)
    as [[out st']|] eqn:E1; [|vm_compute in E1; discriminate E1].
  assert (out = msg_externals_failed) as ->.
  { vm_compute in E1. by injection E1 as <- <-. }
  exists st0, st'. split_and!; [done | done |].
  exact (proj1 (failed_phase_leaves_earlier_placements
                  (rt := RefRuntime.runtime) _ _ _ _ _ _ E0 E1) eq_refl).
Defined.
